(** * tinypid: PID controllers over single-precision floats

    A shallow embedding of the Go package [tinypid] (float32.go,
    controller.go, pi_controller.go and the anti-windup and tracking
    controllers) and the properties of its update laws.

    A [float32] is a [spec_float] of the Standard Library's IEEE 754
    specification, instantiated at precision 24 and maximal exponent 128
    (binary32).  Every arithmetic operation of the Go source is one rounded
    operation of that specification, in the order and association in which
    the source writes it (Go's [a + b + c] is [(a + b) + c]); the fused
    multiply-add that the Go specification allows a compiler to emit is not
    modelled.  A [time.Duration] is an int64 count of nanoseconds, embedded
    as a [Z]. *)

From Stdlib Require Import ZArith Lia Bool List.
From Stdlib Require Import Floats.SpecFloat.
Import ListNotations.

Local Open Scope Z_scope.

(** ** float32.go and the numeric substrate *)

Module F32.

Definition prec : Z := 24.
Definition emax : Z := 128.

Definition float32 : Type := spec_float.

Definition valid (x : float32) : bool := valid_binary prec emax x.

Definition add : float32 -> float32 -> float32 := SFadd prec emax.
Definition sub : float32 -> float32 -> float32 := SFsub prec emax.
Definition mul : float32 -> float32 -> float32 := SFmul prec emax.
Definition div : float32 -> float32 -> float32 := SFdiv prec emax.
Definition neg : float32 -> float32 := SFopp.

(** The float32 nearest to an integer (ties to even): Go's conversion
    [float32(n)] of an integer [n], and the value of an untyped integer
    constant used as a float32. *)
Definition of_Z (n : Z) : float32 := binary_normalize prec emax n 0 false.

Definition zero : float32 := S754_zero false.
Definition one : float32 := Eval cbv in of_Z 1.
Definition nan : float32 := S754_nan.
Definition pinf : float32 := S754_infinity false.
Definition ninf : float32 := S754_infinity true.

Definition is_nan (x : float32) : bool :=
  match x with S754_nan => true | _ => false end.

Definition is_inf (x : float32) : bool :=
  match x with S754_infinity _ => true | _ => false end.

Definition is_zero (x : float32) : bool :=
  match x with S754_zero _ => true | _ => false end.

Definition is_finite (x : float32) : bool :=
  match x with S754_zero _ | S754_finite _ _ _ => true | _ => false end.

Definition signbit (x : float32) : bool :=
  match x with
  | S754_zero s | S754_infinity s | S754_finite s _ _ => s
  | S754_nan => false
  end.

(** Go's comparison operators on float32; every comparison with a NaN
    operand is false. *)
Definition eqb : float32 -> float32 -> bool := SFeqb.
Definition ltb : float32 -> float32 -> bool := SFltb.
Definition leb : float32 -> float32 -> bool := SFleb.

(** Go's built-in [min] and [max] at float32 (Go 1.21): the result is NaN
    as soon as one argument is NaN, and negative zero is smaller than
    positive zero. *)
Definition min (x y : float32) : float32 :=
  match SFcompare x y with
  | None => S754_nan
  | Some Lt => x
  | Some Gt => y
  | Some Eq => if signbit x then x else y
  end.

Definition max (x y : float32) : float32 :=
  match SFcompare x y with
  | None => S754_nan
  | Some Lt => y
  | Some Gt => x
  | Some Eq => if signbit x then y else x
  end.

(** [MaxFloat32 = 0x1p127 * (1 + (1 - 0x1p-23))], an untyped constant:
    exactly [(2^24 - 1) * 2^104], with [2^24 - 1 = 16777215]. *)
Definition MaxFloat32 : float32 := S754_finite false 16777215 104.

(** [math.Float32bits] and [math.Float32frombits]: the IEEE 754 binary32
    representation as a uint32, sign in bit 31, biased exponent in bits 30
    to 23, fraction in bits 22 to 0.  The one NaN of the model is
    represented by the quiet NaN 0x7fc00000, and every NaN pattern is read
    back as it. *)
Definition pack (s : bool) (E F : Z) : Z :=
  Z.lor (Z.shiftl (Z.b2z s) 31) (Z.lor (Z.shiftl E 23) F).

Definition Float32bits (x : float32) : Z :=
  match x with
  | S754_zero s => pack s 0 0
  | S754_infinity s => pack s 255 0
  | S754_nan => pack false 255 (2 ^ 22)
  | S754_finite s m e =>
      if Zpos m <? 2 ^ 23 then pack s 0 (Zpos m)
      else pack s (e + 150) (Zpos m - 2 ^ 23)
  end.

Definition Float32frombits (b : Z) : float32 :=
  let s := Z.testbit b 31 in
  let E := Z.land (Z.shiftr b 23) 255 in
  let F := Z.land b (2 ^ 23 - 1) in
  if E =? 0 then
    match F with Zpos m => S754_finite s m (-149) | _ => S754_zero s end
  else if E =? 255 then
    (if F =? 0 then S754_infinity s else S754_nan)
  else
    match F + 2 ^ 23 with
    | Zpos m => S754_finite s m (E - 150)
    | _ => S754_nan
    end.

(** [Abs(x)] is [math.Float32frombits(math.Float32bits(x) &^ (1 << 31))]:
    it clears the sign bit of the representation. *)
Definition Abs (x : float32) : float32 :=
  Float32frombits (Z.ldiff (Float32bits x) (Z.shiftl 1 31)).

(** [IsNaN(f)] is [f != f]. *)
Definition IsNaN (f : float32) : bool := negb (eqb f f).

(** [time.Duration]: int64 nanoseconds. *)
Definition Duration : Type := Z.
Definition Nanosecond : Duration := 1.
Definition Millisecond : Duration := 1000000.
Definition Second : Duration := 1000000000.

(** [seconds(d) = float32(d) / 1e9]. *)
Definition seconds (d : Duration) : float32 := div (of_Z d) (of_Z 1000000000).

End F32.

Import F32.

Declare Scope f32_scope.
Delimit Scope f32_scope with f32.
Infix "+" := add : f32_scope.
Infix "-" := sub : f32_scope.
Infix "*" := mul : f32_scope.
Infix "/" := div : f32_scope.
Notation "- x" := (neg x) : f32_scope.

(** ** controller.go: the basic PID controller *)

Module Controller.

Record ControllerConfig := {
  ProportionalGain : float32;
  IntegralGain : float32;
  DerivativeGain : float32
}.

Record ControllerState := {
  ControlError : float32;
  ControlErrorIntegral : float32;
  ControlErrorDerivative : float32;
  ControlSignal : float32
}.

Record ControllerInput := {
  ReferenceSignal : float32;
  ActualSignal : float32;
  SamplingInterval : Duration
}.

Record Controller := {
  Config : ControllerConfig;
  State : ControllerState
}.

(** The zero value [ControllerState{}]. *)
Definition zeroState : ControllerState :=
  {| ControlError := zero; ControlErrorIntegral := zero;
     ControlErrorDerivative := zero; ControlSignal := zero |}.

Definition Update (c : Controller) (input : ControllerInput) : Controller :=
  let cfg := Config c in
  let previousError := ControlError (State c) in
  let controlError := (ReferenceSignal input - ActualSignal input)%f32 in
  let derivative :=
    ((controlError - previousError) / seconds (SamplingInterval input))%f32 in
  let integral :=
    (ControlErrorIntegral (State c)
     + controlError * seconds (SamplingInterval input))%f32 in
  let signal :=
    (ProportionalGain cfg * controlError
     + IntegralGain cfg * integral
     + DerivativeGain cfg * derivative)%f32 in
  {| Config := cfg;
     State := {| ControlError := controlError;
                 ControlErrorIntegral := integral;
                 ControlErrorDerivative := derivative;
                 ControlSignal := signal |} |}.

Definition Reset (c : Controller) : Controller :=
  {| Config := Config c; State := zeroState |}.

(** The caller's control loop: one [Update] per sampling period. *)
Definition Updates (c : Controller) (inputs : list ControllerInput) : Controller :=
  fold_left Update inputs c.

End Controller.

(** ** pi_controller.go: the PI controller with a clamped integral *)

Module PIController.

Record PIControllerConfig := {
  ProportionalGain : float32;
  IntegralGain : float32;
  MaxIntegralError : float32;
  MinIntegralError : float32;
  MaxOutput : float32;
  MinOutput : float32
}.

Record PIControllerState := {
  ControlErrorIntegral : float32;
  ControlSignal : float32
}.

Record PIControllerInput := {
  ReferenceSignal : float32;
  ActualSignal : float32;
  SamplingInterval : Duration
}.

Record PIController := {
  Config : PIControllerConfig;
  State : PIControllerState
}.

Definition zeroState : PIControllerState :=
  {| ControlErrorIntegral := zero; ControlSignal := zero |}.

Definition Update (c : PIController) (input : PIControllerInput)
  : PIController :=
  let cfg := Config c in
  let controlError := (ReferenceSignal input - ActualSignal input)%f32 in
  let integral :=
    max (MinIntegralError cfg)
        (min (MaxIntegralError cfg)
             (ControlErrorIntegral (State c)
              + controlError * seconds (SamplingInterval input))%f32) in
  let signal :=
    (ProportionalGain cfg * controlError + IntegralGain cfg * integral)%f32 in
  {| Config := cfg;
     State := {| ControlErrorIntegral := integral;
                 ControlSignal := signal |} |}.

Definition Reset (c : PIController) : PIController :=
  {| Config := Config c; State := zeroState |}.

(** The caller's control loop: one [Update] per sampling period. *)
Definition Updates (c : PIController) (inputs : list PIControllerInput) : PIController :=
  fold_left Update inputs c.

End PIController.

(** ** The anti-windup controller *)

Module AntiWindupController.

Record AntiWindupControllerConfig := {
  ProportionalGain : float32;
  IntegralGain : float32;
  DerivativeGain : float32;
  AntiWindUpGain : float32;
  IntegralDischargeTimeConstant : float32;
  LowPassTimeConstant : Duration;
  MaxOutput : float32;
  MinOutput : float32
}.

Record AntiWindupControllerState := {
  ControlError : float32;
  ControlErrorIntegrand : float32;
  ControlErrorIntegral : float32;
  ControlErrorDerivative : float32;
  ControlSignal : float32;
  UnsaturatedControlSignal : float32
}.

Record AntiWindupControllerInput := {
  ReferenceSignal : float32;
  ActualSignal : float32;
  FeedForwardSignal : float32;
  SamplingInterval : Duration
}.

Record AntiWindupController := {
  Config : AntiWindupControllerConfig;
  State : AntiWindupControllerState
}.

Definition zeroState : AntiWindupControllerState :=
  {| ControlError := zero; ControlErrorIntegrand := zero;
     ControlErrorIntegral := zero; ControlErrorDerivative := zero;
     ControlSignal := zero; UnsaturatedControlSignal := zero |}.

Definition Reset (c : AntiWindupController) : AntiWindupController :=
  {| Config := Config c; State := zeroState |}.

Definition Update (c : AntiWindupController) (input : AntiWindupControllerInput)
  : AntiWindupController :=
  let cfg := Config c in
  let st := State c in
  let e := (ReferenceSignal input - ActualSignal input)%f32 in
  let controlErrorIntegral :=
    (ControlErrorIntegrand st * seconds (SamplingInterval input)
     + ControlErrorIntegral st)%f32 in
  let controlErrorDerivative :=
    (((one / seconds (LowPassTimeConstant cfg)) * (e - ControlError st)
      + ControlErrorDerivative st)
     / (seconds (SamplingInterval input) / seconds (LowPassTimeConstant cfg)
        + one))%f32 in
  let unsaturated :=
    (e * ProportionalGain cfg + IntegralGain cfg * controlErrorIntegral
     + DerivativeGain cfg * controlErrorDerivative
     + FeedForwardSignal input)%f32 in
  let signal := max (MinOutput cfg) (min (MaxOutput cfg) unsaturated) in
  let integrand := (e + AntiWindUpGain cfg * (signal - unsaturated))%f32 in
  let integrand := max (- MaxFloat32)%f32 (min MaxFloat32 integrand) in
  {| Config := cfg;
     State :=
       {| ControlError := max (- MaxFloat32)%f32 (min MaxFloat32 e);
          ControlErrorIntegrand := integrand;
          ControlErrorIntegral :=
            max (- MaxFloat32)%f32 (min MaxFloat32 controlErrorIntegral);
          ControlErrorDerivative :=
            max (- MaxFloat32)%f32 (min MaxFloat32 controlErrorDerivative);
          ControlSignal := signal;
          UnsaturatedControlSignal := unsaturated |} |}.

Definition DischargeIntegral (c : AntiWindupController) (dt : Duration)
  : AntiWindupController :=
  let cfg := Config c in
  let st := State c in
  {| Config := cfg;
     State :=
       {| ControlError := ControlError st;
          ControlErrorIntegrand := zero;
          ControlErrorIntegral :=
            (max zero
                 (min (one - seconds dt / IntegralDischargeTimeConstant cfg)%f32
                      one)
             * ControlErrorIntegral st)%f32;
          ControlErrorDerivative := ControlErrorDerivative st;
          ControlSignal := ControlSignal st;
          UnsaturatedControlSignal := UnsaturatedControlSignal st |} |}.

(** The caller's control loop: one [Update] per sampling period. *)
Definition Updates (c : AntiWindupController) (inputs : list AntiWindupControllerInput) : AntiWindupController :=
  fold_left Update inputs c.

End AntiWindupController.

(** ** pi_controller.go: the tracking controller *)

Module TrackingController.

Record TrackingControllerConfig := {
  ProportionalGain : float32;
  IntegralGain : float32;
  DerivativeGain : float32;
  AntiWindUpGain : float32;
  IntegralDischargeTimeConstant : float32;
  LowPassTimeConstant : Duration;
  MaxOutput : float32;
  MinOutput : float32
}.

Record TrackingControllerState := {
  ControlError : float32;
  ControlErrorIntegrand : float32;
  ControlErrorIntegral : float32;
  ControlErrorDerivative : float32;
  ControlSignal : float32;
  UnsaturatedControlSignal : float32
}.

Record TrackingControllerInput := {
  ReferenceSignal : float32;
  ActualSignal : float32;
  FeedForwardSignal : float32;
  AppliedControlSignal : float32;
  SamplingInterval : Duration
}.

Record TrackingController := {
  Config : TrackingControllerConfig;
  State : TrackingControllerState
}.

Definition zeroState : TrackingControllerState :=
  {| ControlError := zero; ControlErrorIntegrand := zero;
     ControlErrorIntegral := zero; ControlErrorDerivative := zero;
     ControlSignal := zero; UnsaturatedControlSignal := zero |}.

Definition Reset (c : TrackingController) : TrackingController :=
  {| Config := Config c; State := zeroState |}.

Definition Update (c : TrackingController) (input : TrackingControllerInput)
  : TrackingController :=
  let cfg := Config c in
  let st := State c in
  let e := (ReferenceSignal input - ActualSignal input)%f32 in
  let controlErrorIntegral :=
    (ControlErrorIntegrand st * seconds (SamplingInterval input)
     + ControlErrorIntegral st)%f32 in
  let controlErrorDerivative :=
    (((one / seconds (LowPassTimeConstant cfg)) * (e - ControlError st)
      + ControlErrorDerivative st)
     / (seconds (SamplingInterval input) / seconds (LowPassTimeConstant cfg)
        + one))%f32 in
  let unsaturated :=
    (e * ProportionalGain cfg + IntegralGain cfg * controlErrorIntegral
     + DerivativeGain cfg * controlErrorDerivative
     + FeedForwardSignal input)%f32 in
  let signal := max (MinOutput cfg) (min (MaxOutput cfg) unsaturated) in
  let integrand :=
    (e + AntiWindUpGain cfg * (AppliedControlSignal input - unsaturated))%f32 in
  let integrand := max (- MaxFloat32)%f32 (min MaxFloat32 integrand) in
  {| Config := cfg;
     State :=
       {| ControlError := max (- MaxFloat32)%f32 (min MaxFloat32 e);
          ControlErrorIntegrand := integrand;
          ControlErrorIntegral :=
            max (- MaxFloat32)%f32 (min MaxFloat32 controlErrorIntegral);
          ControlErrorDerivative :=
            max (- MaxFloat32)%f32 (min MaxFloat32 controlErrorDerivative);
          ControlSignal := signal;
          UnsaturatedControlSignal := unsaturated |} |}.

Definition DischargeIntegral (c : TrackingController) (dt : Duration)
  : TrackingController :=
  let cfg := Config c in
  let st := State c in
  {| Config := cfg;
     State :=
       {| ControlError := ControlError st;
          ControlErrorIntegrand := zero;
          ControlErrorIntegral :=
            (max zero
                 (min (one - seconds dt / IntegralDischargeTimeConstant cfg)%f32
                      one)
             * ControlErrorIntegral st)%f32;
          ControlErrorDerivative := ControlErrorDerivative st;
          ControlSignal := ControlSignal st;
          UnsaturatedControlSignal := UnsaturatedControlSignal st |} |}.

(** The caller's control loop: one [Update] per sampling period. *)
Definition Updates (c : TrackingController) (inputs : list TrackingControllerInput) : TrackingController :=
  fold_left Update inputs c.

(** The anti-windup controller with the same tuning, state and input
    (the applied control signal has no counterpart there). *)
Definition toAntiWindupConfig (cfg : TrackingControllerConfig)
  : AntiWindupController.AntiWindupControllerConfig :=
  {| AntiWindupController.ProportionalGain := ProportionalGain cfg;
     AntiWindupController.IntegralGain := IntegralGain cfg;
     AntiWindupController.DerivativeGain := DerivativeGain cfg;
     AntiWindupController.AntiWindUpGain := AntiWindUpGain cfg;
     AntiWindupController.IntegralDischargeTimeConstant :=
       IntegralDischargeTimeConstant cfg;
     AntiWindupController.LowPassTimeConstant := LowPassTimeConstant cfg;
     AntiWindupController.MaxOutput := MaxOutput cfg;
     AntiWindupController.MinOutput := MinOutput cfg |}.

Definition toAntiWindupState (st : TrackingControllerState)
  : AntiWindupController.AntiWindupControllerState :=
  {| AntiWindupController.ControlError := ControlError st;
     AntiWindupController.ControlErrorIntegrand := ControlErrorIntegrand st;
     AntiWindupController.ControlErrorIntegral := ControlErrorIntegral st;
     AntiWindupController.ControlErrorDerivative := ControlErrorDerivative st;
     AntiWindupController.ControlSignal := ControlSignal st;
     AntiWindupController.UnsaturatedControlSignal :=
       UnsaturatedControlSignal st |}.

Definition toAntiWindupInput (input : TrackingControllerInput)
  : AntiWindupController.AntiWindupControllerInput :=
  {| AntiWindupController.ReferenceSignal := ReferenceSignal input;
     AntiWindupController.ActualSignal := ActualSignal input;
     AntiWindupController.FeedForwardSignal := FeedForwardSignal input;
     AntiWindupController.SamplingInterval := SamplingInterval input |}.

Definition toAntiWindup (c : TrackingController)
  : AntiWindupController.AntiWindupController :=
  {| AntiWindupController.Config := toAntiWindupConfig (Config c);
     AntiWindupController.State := toAntiWindupState (State c) |}.

End TrackingController.

(** ** Vocabulary of the specification *)

(** [clamp x lo hi], the specification's name for the composition
    [max(lo, min(hi, x))] that the source writes out at every use. *)
Definition clamp (x lo hi : float32) : float32 := max lo (min hi x).

(** The clamp to [[-MaxFloat32, MaxFloat32]] of the state fields. *)
Definition clampMax (x : float32) : float32 :=
  clamp x (- MaxFloat32)%f32 MaxFloat32.

(** [x] lies in the closed interval [[lo, hi]]. *)
Definition within (lo hi x : float32) : Prop :=
  leb lo x = true /\ leb x hi = true.

(** Neither an infinity nor a NaN. *)
Definition finite (x : float32) : Prop := is_finite x = true.

(** The integral accumulation of the anti-windup and tracking controllers:
    [integral = integrand_prev * dt + integral_prev]. *)
Definition integral_law (integrand_prev dt integral_prev : float32) : float32 :=
  (integrand_prev * dt + integral_prev)%f32.

(** The discretized derivative low-pass filter:
    [((1/tau) * (error - prevError) + prevDerivative) / (dt/tau + 1)]. *)
Definition lowpass_law (tau dt error prevError prevDerivative : float32)
  : float32 :=
  (((one / tau) * (error - prevError) + prevDerivative) / (dt / tau + one))%f32.

(** The factor of the integral discharge,
    [clamp(1 - dt/IntegralDischargeTimeConstant, 0, 1)], with the operands in
    the order of the source: [max(0, min(1 - dt/T, 1.0))]. *)
Definition discharge_factor (dt T : float32) : float32 :=
  max zero (min (one - dt / T)%f32 one).

Module AW := AntiWindupController.
Module TR := TrackingController.
Module PI := PIController.
Module PID := Controller.

(** The clamp of the state fields leaves every float that is not an
    infinity alone; [replaceInf] is what it does to the others. *)
Definition replaceInf (x : float32) : float32 :=
  if is_inf x then (if signbit x then (- MaxFloat32)%f32 else MaxFloat32) else x.

(** All float32 parameters of a configuration, all float32 fields of an input
    and of a state are finite (neither infinite nor NaN); the durations are
    integers. *)
Definition AW_finiteConfig (cfg : AW.AntiWindupControllerConfig) : bool :=
  is_finite (AW.ProportionalGain cfg) && is_finite (AW.IntegralGain cfg)
  && is_finite (AW.DerivativeGain cfg) && is_finite (AW.AntiWindUpGain cfg)
  && is_finite (AW.IntegralDischargeTimeConstant cfg)
  && is_finite (AW.MaxOutput cfg) && is_finite (AW.MinOutput cfg).

Definition AW_finiteInput (input : AW.AntiWindupControllerInput) : bool :=
  is_finite (AW.ReferenceSignal input) && is_finite (AW.ActualSignal input)
  && is_finite (AW.FeedForwardSignal input).

Definition AW_finiteState (st : AW.AntiWindupControllerState) : bool :=
  is_finite (AW.ControlError st) && is_finite (AW.ControlErrorIntegrand st)
  && is_finite (AW.ControlErrorIntegral st)
  && is_finite (AW.ControlErrorDerivative st)
  && is_finite (AW.ControlSignal st)
  && is_finite (AW.UnsaturatedControlSignal st).

Definition TR_finiteConfig (cfg : TR.TrackingControllerConfig) : bool :=
  AW_finiteConfig (TR.toAntiWindupConfig cfg).

Definition TR_finiteInput (input : TR.TrackingControllerInput) : bool :=
  AW_finiteInput (TR.toAntiWindupInput input)
  && is_finite (TR.AppliedControlSignal input).

Definition TR_finiteState (st : TR.TrackingControllerState) : bool :=
  AW_finiteState (TR.toAntiWindupState st).

(** All float32 values of a controller and of an input are floats of the
    binary32 format. *)
Definition AW_validState (st : AW.AntiWindupControllerState) : bool :=
  valid (AW.ControlError st) && valid (AW.ControlErrorIntegrand st)
  && valid (AW.ControlErrorIntegral st)
  && valid (AW.ControlErrorDerivative st)
  && valid (AW.ControlSignal st)
  && valid (AW.UnsaturatedControlSignal st).

Definition AW_validConfig (cfg : AW.AntiWindupControllerConfig) : bool :=
  valid (AW.ProportionalGain cfg) && valid (AW.IntegralGain cfg)
  && valid (AW.DerivativeGain cfg) && valid (AW.AntiWindUpGain cfg)
  && valid (AW.IntegralDischargeTimeConstant cfg)
  && valid (AW.MaxOutput cfg) && valid (AW.MinOutput cfg).

Definition AW_validInput (input : AW.AntiWindupControllerInput) : bool :=
  valid (AW.ReferenceSignal input) && valid (AW.ActualSignal input)
  && valid (AW.FeedForwardSignal input).

(** The exact comparison [dt >= T] of a duration, in nanoseconds, with a
    float32 number of seconds: no rounding, the two sides are brought to a
    common power of two and compared as integers. *)
Definition duration_geb (dt : Duration) (T : float32) : bool :=
  match T with
  | S754_nan => false
  | S754_infinity s => s
  | S754_zero _ => 0 <=? dt
  | S754_finite s m e =>
      let v := if s then Zneg m else Zpos m in
      if 0 <=? e then v * 2 ^ e * 1000000000 <=? dt
      else v * 1000000000 <=? dt * 2 ^ (- e)
  end.

(** ** Example controllers and inputs *)

Module Examples.

Definition negzero : float32 := S754_zero true.

(** 0.5 and 0.25, exactly. *)
Definition half : float32 := S754_finite false 8388608 (-24).

Definition awConfig : AW.AntiWindupControllerConfig :=
  {| AW.ProportionalGain := of_Z 2; AW.IntegralGain := of_Z 1;
     AW.DerivativeGain := of_Z 1; AW.AntiWindUpGain := of_Z 1;
     AW.IntegralDischargeTimeConstant := of_Z 1;
     AW.LowPassTimeConstant := Second;
     AW.MaxOutput := of_Z 100; AW.MinOutput := of_Z (-100) |}.

Definition aw : AW.AntiWindupController :=
  {| AW.Config := awConfig; AW.State := AW.zeroState |}.

(** A step to the largest float32: the proportional term overflows. *)
Definition awStepMax : AW.AntiWindupControllerInput :=
  {| AW.ReferenceSignal := MaxFloat32; AW.ActualSignal := zero;
     AW.FeedForwardSignal := zero; AW.SamplingInterval := Second |}.

Definition awStep (r a : Z) : AW.AntiWindupControllerInput :=
  {| AW.ReferenceSignal := of_Z r; AW.ActualSignal := of_Z a;
     AW.FeedForwardSignal := zero; AW.SamplingInterval := 100 * Millisecond |}.

(** A proportional-integral tuning (no derivative action) and a reference
    and a measurement at the two ends of the float32 range. *)
Definition awConfigPI : AW.AntiWindupControllerConfig :=
  {| AW.ProportionalGain := of_Z 1; AW.IntegralGain := of_Z 1;
     AW.DerivativeGain := zero; AW.AntiWindUpGain := of_Z 1;
     AW.IntegralDischargeTimeConstant := of_Z 1;
     AW.LowPassTimeConstant := Second;
     AW.MaxOutput := of_Z 100; AW.MinOutput := of_Z (-100) |}.

Definition awOpposite : AW.AntiWindupControllerInput :=
  {| AW.ReferenceSignal := MaxFloat32; AW.ActualSignal := (- MaxFloat32)%f32;
     AW.FeedForwardSignal := zero; AW.SamplingInterval := Second |}.

(** Output bounds [[+0, 1]] and a computation that ends in [-0]. *)
Definition awConfigZero : AW.AntiWindupControllerConfig :=
  {| AW.ProportionalGain := of_Z 1; AW.IntegralGain := of_Z 1;
     AW.DerivativeGain := of_Z 1; AW.AntiWindUpGain := of_Z 1;
     AW.IntegralDischargeTimeConstant := of_Z 1;
     AW.LowPassTimeConstant := Second;
     AW.MaxOutput := of_Z 1; AW.MinOutput := zero |}.

Definition awStateNegZero : AW.AntiWindupControllerState :=
  {| AW.ControlError := zero; AW.ControlErrorIntegrand := negzero;
     AW.ControlErrorIntegral := negzero;
     AW.ControlErrorDerivative := negzero;
     AW.ControlSignal := zero; AW.UnsaturatedControlSignal := zero |}.

Definition awInputNegZero : AW.AntiWindupControllerInput :=
  {| AW.ReferenceSignal := negzero; AW.ActualSignal := zero;
     AW.FeedForwardSignal := negzero; AW.SamplingInterval := Second |}.

(** An anti-windup controller with a charged integral, 8. *)
Definition awCharged : AW.AntiWindupController :=
  {| AW.Config := awConfig;
     AW.State :=
       {| AW.ControlError := of_Z 1; AW.ControlErrorIntegrand := of_Z 3;
          AW.ControlErrorIntegral := of_Z 8;
          AW.ControlErrorDerivative := of_Z 2;
          AW.ControlSignal := of_Z 5;
          AW.UnsaturatedControlSignal := of_Z 5 |} |}.

Definition trConfig : TR.TrackingControllerConfig :=
  {| TR.ProportionalGain := of_Z 2; TR.IntegralGain := of_Z 1;
     TR.DerivativeGain := of_Z 1; TR.AntiWindUpGain := of_Z 1;
     TR.IntegralDischargeTimeConstant := of_Z 1;
     TR.LowPassTimeConstant := Second;
     TR.MaxOutput := of_Z 100; TR.MinOutput := of_Z (-100) |}.

Definition tr : TR.TrackingController :=
  {| TR.Config := trConfig; TR.State := TR.zeroState |}.

Definition trStepMax : TR.TrackingControllerInput :=
  {| TR.ReferenceSignal := MaxFloat32; TR.ActualSignal := zero;
     TR.FeedForwardSignal := zero; TR.AppliedControlSignal := zero;
     TR.SamplingInterval := Second |}.

Definition trStep (r a u : Z) : TR.TrackingControllerInput :=
  {| TR.ReferenceSignal := of_Z r; TR.ActualSignal := of_Z a;
     TR.FeedForwardSignal := zero; TR.AppliedControlSignal := of_Z u;
     TR.SamplingInterval := 100 * Millisecond |}.

Definition piConfig (lo hi : Z) : PI.PIControllerConfig :=
  {| PI.ProportionalGain := of_Z 1; PI.IntegralGain := of_Z 1;
     PI.MaxIntegralError := of_Z hi; PI.MinIntegralError := of_Z lo;
     PI.MaxOutput := zero; PI.MinOutput := zero |}.

Definition pi (lo hi : Z) : PI.PIController :=
  {| PI.Config := piConfig lo hi; PI.State := PI.zeroState |}.

Definition piStep (r a : Z) : PI.PIControllerInput :=
  {| PI.ReferenceSignal := of_Z r; PI.ActualSignal := of_Z a;
     PI.SamplingInterval := Second |}.

Definition piStepNaN : PI.PIControllerInput :=
  {| PI.ReferenceSignal := nan; PI.ActualSignal := zero;
     PI.SamplingInterval := Second |}.

Definition pid : PID.Controller :=
  {| PID.Config := {| PID.ProportionalGain := of_Z 2;
                      PID.IntegralGain := of_Z 1;
                      PID.DerivativeGain := of_Z 1 |};
     PID.State := PID.zeroState |}.

Definition pidStep : PID.ControllerInput :=
  {| PID.ReferenceSignal := of_Z 10; PID.ActualSignal := zero;
     PID.SamplingInterval := 100 * Millisecond |}.

(** The charged controller with a discharge time constant of 1.125 s
    (exactly [9437184 * 2^-23]). *)
Definition awCharged1125 : AW.AntiWindupController :=
  {| AW.Config :=
       {| AW.ProportionalGain := of_Z 2; AW.IntegralGain := of_Z 1;
          AW.DerivativeGain := of_Z 1; AW.AntiWindUpGain := of_Z 1;
          AW.IntegralDischargeTimeConstant := S754_finite false 9437184 (-23);
          AW.LowPassTimeConstant := Second;
          AW.MaxOutput := of_Z 100; AW.MinOutput := of_Z (-100) |};
     AW.State := AW.State awCharged |}.

(** A step with reference and measurement at 0, two seconds after the
    previous one. *)
Definition awStepLong : AW.AntiWindupControllerInput :=
  {| AW.ReferenceSignal := zero; AW.ActualSignal := zero;
     AW.FeedForwardSignal := zero; AW.SamplingInterval := 2 * Second |}.

(** The zero value of the anti-windup controller: every gain, bound and time
    constant is 0. *)
Definition awZeroValue : AW.AntiWindupController :=
  {| AW.Config :=
       {| AW.ProportionalGain := zero; AW.IntegralGain := zero;
          AW.DerivativeGain := zero; AW.AntiWindUpGain := zero;
          AW.IntegralDischargeTimeConstant := zero;
          AW.LowPassTimeConstant := 0;
          AW.MaxOutput := zero; AW.MinOutput := zero |};
     AW.State := AW.zeroState |}.

(** The charged controller with a zero discharge time constant. *)
Definition awChargedT0 : AW.AntiWindupController :=
  {| AW.Config :=
       {| AW.ProportionalGain := of_Z 2; AW.IntegralGain := of_Z 1;
          AW.DerivativeGain := of_Z 1; AW.AntiWindUpGain := of_Z 1;
          AW.IntegralDischargeTimeConstant := zero;
          AW.LowPassTimeConstant := Second;
          AW.MaxOutput := of_Z 100; AW.MinOutput := of_Z (-100) |};
     AW.State := AW.State awCharged |}.

(** An input of the tracking controller whose applied control signal is the
    control signal that the controller computes for it. *)
Definition trFollow : TR.TrackingControllerInput :=
  {| TR.ReferenceSignal := of_Z 10; TR.ActualSignal := of_Z 0;
     TR.FeedForwardSignal := zero;
     TR.AppliedControlSignal :=
       TR.ControlSignal (TR.State (TR.Update tr (trStep 10 0 0)));
     TR.SamplingInterval := 100 * Millisecond |}.

End Examples.

(** The actuator follows the tracking controller: along the run, each
    applied control signal is the control signal of that very update. *)
Fixpoint follows (c : TR.TrackingController)
         (inputs : list TR.TrackingControllerInput) : Prop :=
  match inputs with
  | [] => True
  | i :: l =>
      TR.AppliedControlSignal i = TR.ControlSignal (TR.State (TR.Update c i))
      /\ follows (TR.Update c i) l
  end.

(** Case analysis on the integer comparisons in a goal about the order of
    floats. *)
Ltac compare_cases :=
  repeat match goal with
    | H : context [Pos.compare_cont Eq ?a ?b] |- _ =>
        change (Pos.compare_cont Eq a b) with (Pos.compare a b) in H
    | |- context [Pos.compare_cont Eq ?a ?b] =>
        change (Pos.compare_cont Eq a b) with (Pos.compare a b)
    end;
  repeat match goal with
    | H : context [Z.compare ?a ?b] |- _ => destruct (Z.compare_spec a b)
    | |- context [Z.compare ?a ?b] => destruct (Z.compare_spec a b)
    | H : context [Pos.compare ?a ?b] |- _ => destruct (Pos.compare_spec a b)
    | |- context [Pos.compare ?a ?b] => destruct (Pos.compare_spec a b)
    end;
  simpl in *; subst; try discriminate; try reflexivity; try lia.

(** ** Order facts about the float32 comparison *)

Section Compare.

Lemma compare_antisym (x y : float32) :
  SFcompare y x = option_map CompOpp (SFcompare x y).
Proof.
  destruct x as [sx|sx| |sx mx ex], y as [sy|sy| |sy my ey]; simpl;
    try reflexivity;
    try (destruct sx; reflexivity); try (destruct sy; reflexivity);
    try (destruct sx, sy; reflexivity).
  change (Pos.compare_cont Eq my mx) with (Pos.compare my mx).
  change (Pos.compare_cont Eq mx my) with (Pos.compare mx my).
  rewrite (Z.compare_antisym ex ey), (Pos.compare_antisym mx my).
  destruct sx, sy; simpl; try reflexivity;
    destruct (ex ?= ey); simpl; try reflexivity;
    destruct (mx ?= my)%positive; reflexivity.
Qed.

Lemma compare_refl (x : float32) :
  is_nan x = false -> SFcompare x x = Some Eq.
Proof.
  destruct x as [s|s| |s m e]; simpl; intros H;
    try discriminate; try reflexivity.
  - destruct s; reflexivity.
  - change (Pos.compare_cont Eq m m) with (Pos.compare m m).
    rewrite Z.compare_refl, Pos.compare_refl. destruct s; reflexivity.
Qed.

(** Two floats that compare equal are the same value, except for the two
    zeros. *)
Lemma compare_Eq_inv (x y : float32) :
  SFcompare x y = Some Eq ->
  x = y \/ (is_zero x = true /\ is_zero y = true).
Proof.
  destruct x as [sx|sx| |sx mx ex], y as [sy|sy| |sy my ey]; simpl;
    try discriminate; try (destruct sx; discriminate);
    try (destruct sy; discriminate).
  - intros _. right. split; reflexivity.
  - destruct sx, sy; intros H; try discriminate; left; reflexivity.
  - change (Pos.compare_cont Eq mx my) with (Pos.compare mx my).
    destruct sx, sy; try discriminate;
      destruct (ex ?= ey) eqn:He; try discriminate;
      destruct (mx ?= my)%positive eqn:Hm; try discriminate;
      intros _; left;
      apply Z.compare_eq in He; apply Pos.compare_eq in Hm;
      subst; reflexivity.
Qed.

Lemma compare_nan_l (y : float32) : SFcompare nan y = None.
Proof. reflexivity. Qed.

Lemma compare_nan_r (x : float32) : SFcompare x nan = None.
Proof. destruct x; reflexivity. Qed.

Lemma compare_None (x y : float32) :
  SFcompare x y = None -> is_nan x = true \/ is_nan y = true.
Proof.
  destruct x as [sx|sx| |sx mx ex], y as [sy|sy| |sy my ey]; simpl;
    intros H; try discriminate; auto.
Qed.

Lemma compare_Some (x y : float32) :
  is_nan x = false -> is_nan y = false ->
  exists c, SFcompare x y = Some c.
Proof.
  intros Hx Hy. destruct (SFcompare x y) as [c|] eqn:E.
  - now exists c.
  - apply compare_None in E. destruct E; congruence.
Qed.

Lemma leb_not_nan (x y : float32) :
  leb x y = true -> is_nan x = false /\ is_nan y = false.
Proof.
  unfold leb, SFleb. destruct x, y; simpl; intros H;
    try discriminate; split; reflexivity.
Qed.

Lemma leb_refl (x : float32) : is_nan x = false -> leb x x = true.
Proof.
  intros H. unfold leb, SFleb. now rewrite compare_refl.
Qed.

Lemma eqb_refl (x : float32) : is_nan x = false -> eqb x x = true.
Proof.
  intros H. unfold eqb, SFeqb. now rewrite compare_refl.
Qed.

(** The comparison does not see the sign of a zero. *)
Lemma compare_zero_r (x : float32) (s s' : bool) :
  SFcompare x (S754_zero s) = SFcompare x (S754_zero s').
Proof. destruct x; reflexivity. Qed.

Lemma compare_zero_l (y : float32) (s s' : bool) :
  SFcompare (S754_zero s) y = SFcompare (S754_zero s') y.
Proof. destruct y; reflexivity. Qed.

End Compare.

(** ** Go's [min] and [max], and the clamp [max lo (min hi x)] *)

Section MinMax.

Lemma min_nan_l (y : float32) : min nan y = nan.
Proof. reflexivity. Qed.

Lemma min_nan_r (x : float32) : min x nan = nan.
Proof. unfold min. now rewrite compare_nan_r. Qed.

Lemma max_nan_l (y : float32) : max nan y = nan.
Proof. reflexivity. Qed.

Lemma max_nan_r (x : float32) : max x nan = nan.
Proof. unfold max. now rewrite compare_nan_r. Qed.

Lemma min_cases (x y : float32) :
  (min x y = nan /\ SFcompare x y = None)
  \/ (min x y = x /\ exists c, SFcompare x y = Some c /\ c <> Gt)
  \/ (min x y = y /\ exists c, SFcompare x y = Some c /\ c <> Lt).
Proof.
  unfold min. destruct (SFcompare x y) as [[]|] eqn:E.
  - destruct (signbit x).
    + right; left; split; [reflexivity|]. exists Eq. split; congruence.
    + right; right; split; [reflexivity|]. exists Eq. split; congruence.
  - right; left; split; [reflexivity|]. exists Lt. split; congruence.
  - right; right; split; [reflexivity|]. exists Gt. split; congruence.
  - left. split; reflexivity.
Qed.

Lemma max_cases (x y : float32) :
  (max x y = nan /\ SFcompare x y = None)
  \/ (max x y = x /\ exists c, SFcompare x y = Some c /\ c <> Lt)
  \/ (max x y = y /\ exists c, SFcompare x y = Some c /\ c <> Gt).
Proof.
  unfold max. destruct (SFcompare x y) as [[]|] eqn:E.
  - destruct (signbit x).
    + right; right; split; [reflexivity|]. exists Eq. split; congruence.
    + right; left; split; [reflexivity|]. exists Eq. split; congruence.
  - right; right; split; [reflexivity|]. exists Lt. split; congruence.
  - right; left; split; [reflexivity|]. exists Gt. split; congruence.
  - left. split; reflexivity.
Qed.

Lemma min_is_nan (x y : float32) :
  is_nan (min x y) = is_nan x || is_nan y.
Proof.
  destruct (is_nan x) eqn:Hx.
  - destruct x; try discriminate. reflexivity.
  - destruct (is_nan y) eqn:Hy.
    + destruct y; try discriminate. now rewrite min_nan_r.
    + destruct (compare_Some x y Hx Hy) as [c Hc].
      unfold min. rewrite Hc. simpl.
      destruct c; try assumption. now destruct (signbit x).
Qed.

Lemma max_is_nan (x y : float32) :
  is_nan (max x y) = is_nan x || is_nan y.
Proof.
  destruct (is_nan x) eqn:Hx.
  - destruct x; try discriminate. reflexivity.
  - destruct (is_nan y) eqn:Hy.
    + destruct y; try discriminate. now rewrite max_nan_r.
    + destruct (compare_Some x y Hx Hy) as [c Hc].
      unfold max. rewrite Hc. simpl.
      destruct c; try assumption. now destruct (signbit x).
Qed.

(** A NaN in any of the three positions of a clamp is its result. *)
Lemma clamp_is_nan (lo hi x : float32) :
  is_nan (max lo (min hi x)) = is_nan lo || is_nan hi || is_nan x.
Proof.
  rewrite max_is_nan, min_is_nan. now rewrite orb_assoc.
Qed.

Lemma clamp_nan (lo hi : float32) : max lo (min hi nan) = nan.
Proof. now rewrite min_nan_r, max_nan_r. Qed.

Lemma leb_of_compare (x y : float32) (c : comparison) :
  SFcompare x y = Some c -> c <> Gt -> leb x y = true.
Proof.
  intros E H. unfold leb, SFleb. rewrite E. destruct c; congruence.
Qed.

Lemma geb_of_compare (x y : float32) (c : comparison) :
  SFcompare x y = Some c -> c <> Lt -> leb y x = true.
Proof.
  intros E H. unfold leb, SFleb. rewrite compare_antisym, E.
  destruct c; simpl; congruence.
Qed.

Lemma leb_compare (x y : float32) :
  leb x y = true -> exists c, SFcompare x y = Some c /\ c <> Gt.
Proof.
  unfold leb, SFleb. destruct (SFcompare x y) as [[]|]; intros H;
    try discriminate; eexists; split; try reflexivity; congruence.
Qed.

(** The clamp of a number into a non-empty interval lies in it. *)
Lemma clamp_bounds (lo hi x : float32) :
  leb lo hi = true -> is_nan x = false ->
  leb lo (max lo (min hi x)) = true /\ leb (max lo (min hi x)) hi = true.
Proof.
  intros Hlh Hx.
  destruct (leb_not_nan _ _ Hlh) as [Hlo Hhi].
  destruct (min_cases hi x) as [[_ E]|[[-> (c & E & Hc)]|[-> (c & E & Hc)]]].
  - apply compare_None in E. destruct E; congruence.
  - destruct (max_cases lo hi) as [[_ E']|[[-> (c' & E' & Hc')]|[-> _]]].
    + apply compare_None in E'. destruct E'; congruence.
    + split; [now apply leb_refl | assumption].
    + split; [assumption | now apply leb_refl].
  - destruct (max_cases lo x) as [[_ E']|[[-> (c' & E' & Hc')]|[-> (c' & E' & Hc')]]].
    + apply compare_None in E'. destruct E'; congruence.
    + split; [now apply leb_refl | assumption].
    + split; [eapply leb_of_compare; eassumption
             | eapply geb_of_compare; eassumption].
Qed.

(** A number already inside the interval is returned: as the same float
    when it is not a zero, and as a zero when it is one. *)
Lemma clamp_inside (lo hi x : float32) :
  leb lo x = true -> leb x hi = true ->
  eqb (max lo (min hi x)) x = true
  /\ (is_zero x = false -> max lo (min hi x) = x).
Proof.
  intros Hl Hh.
  destruct (leb_not_nan _ _ Hl) as [Hlo Hx].
  assert (Hm : min hi x = x
               \/ (is_zero x = true /\ is_zero (min hi x) = true)).
  { destruct (leb_compare _ _ Hh) as (c & E & Hc).
    unfold min. rewrite compare_antisym, E. destruct c; simpl.
    - rewrite compare_antisym in E.
      destruct (SFcompare hi x) as [[]|] eqn:E'; try discriminate.
      destruct (compare_Eq_inv _ _ E') as [->|[Hz Hz']].
      + left. now destruct (signbit x).
      + right. split; [assumption|]. now destruct (signbit hi).
    - now left.
    - congruence. }
  assert (Hr : max lo (min hi x) = x
               \/ (is_zero x = true /\ is_zero (max lo (min hi x)) = true)).
  { destruct Hm as [->|[Hz Hz']].
    - destruct (leb_compare _ _ Hl) as (c & E & Hc).
      unfold max. rewrite E. destruct c.
      + destruct (compare_Eq_inv _ _ E) as [->|[Hz Hz']].
        * left. now destruct (signbit x).
        * right. split; [assumption|]. now destruct (signbit lo).
      + now left.
      + congruence.
    - right. split; [assumption|].
      destruct x as [sx| | |]; try discriminate.
      destruct (min hi (S754_zero sx)) as [sm| | |]; try discriminate.
      destruct (leb_compare _ _ Hl) as (c & E & Hc).
      unfold max. rewrite (compare_zero_r lo sm sx), E.
      destruct c.
      + destruct (compare_Eq_inv _ _ E) as [->|[Hz1 _]].
        * now destruct (signbit (S754_zero sx)).
        * now destruct (signbit lo).
      + reflexivity.
      + congruence. }
  split.
  - destruct Hr as [->|[Hz Hz']].
    + now apply eqb_refl.
    + destruct x; try discriminate.
      destruct (max lo (min hi _)); try discriminate. reflexivity.
  - intros Hnz. destruct Hr as [->|[Hz _]]; [reflexivity | congruence].
Qed.

Lemma min_is_inf (x y : float32) :
  is_inf (min x y) = true -> is_inf x = true \/ is_inf y = true.
Proof.
  destruct (min_cases x y) as [[-> _]|[[-> _]|[-> _]]]; auto.
  discriminate.
Qed.

Lemma max_is_inf (x y : float32) :
  is_inf (max x y) = true -> is_inf x = true \/ is_inf y = true.
Proof.
  destruct (max_cases x y) as [[-> _]|[[-> _]|[-> _]]]; auto.
  discriminate.
Qed.

(** A clamp between two bounds that are not infinite is never infinite,
    whatever is clamped. *)
Lemma clamp_not_inf (lo hi x : float32) :
  is_inf lo = false -> is_inf hi = false ->
  is_inf (max lo (min hi x)) = false.
Proof.
  intros Hlo Hhi.
  destruct (is_inf (max lo (min hi x))) eqn:E; [|reflexivity].
  exfalso.
  destruct x as [sx|[|]| |sx mx ex].
  - apply max_is_inf in E. destruct E as [E|E]; [congruence|].
    apply min_is_inf in E. destruct E; [congruence | discriminate].
  - (* -Inf goes through [min] and is replaced by [lo] *)
    assert (Hm : min hi ninf = ninf \/ min hi ninf = nan)
      by (destruct hi as [[|]|[|]| |[|] mh eh]; try discriminate; cbv; auto).
    destruct Hm as [Hm|Hm]; unfold ninf in Hm; rewrite Hm in E.
    + destruct lo as [[|]|[|]| |[|] ml el]; discriminate.
    + rewrite max_nan_r in E. discriminate.
  - (* +Inf is replaced by [hi] *)
    assert (Hm : min hi pinf = hi \/ min hi pinf = nan)
      by (destruct hi as [[|]|[|]| |[|] mh eh]; try discriminate; cbv; auto).
    destruct Hm as [Hm|Hm]; unfold pinf in Hm; rewrite Hm in E.
    + apply max_is_inf in E. destruct E; congruence.
    + rewrite max_nan_r in E. discriminate.
  - rewrite clamp_nan in E. discriminate.
  - apply max_is_inf in E. destruct E as [E|E]; [congruence|].
    apply min_is_inf in E. destruct E; [congruence | discriminate].
Qed.

End MinMax.

(** ** Rounding to binary32

    Facts about the Standard Library's executable specification of IEEE 754
    arithmetic at precision 24 and maximal exponent 128: the number of
    digits of a mantissa, the right shift that brings a mantissa to the
    exponent of the format, and what one rounding returns. *)

Section Digits.

Lemma digits2_pos_size (p : positive) : digits2_pos p = Pos.size p.
Proof. induction p; simpl; congruence. Qed.

Lemma Zdigits2_log2 (m : Z) : 0 < m -> Zdigits2 m = Z.log2 m + 1.
Proof.
  destruct m as [|p|p]; try lia. intros _. simpl.
  rewrite digits2_pos_size. destruct p; simpl; lia.
Qed.

Lemma Zdigits2_0 : Zdigits2 0 = 0.
Proof. reflexivity. Qed.

Lemma Zdigits2_nonneg (m : Z) : 0 <= Zdigits2 m.
Proof. destruct m; simpl; lia. Qed.

Lemma Zdigits2_pos (m : Z) : 0 < m -> 0 < Zdigits2 m.
Proof. destruct m; simpl; lia. Qed.

Lemma Zdigits2_bounds (m : Z) :
  0 < m -> 2 ^ (Zdigits2 m - 1) <= m < 2 ^ Zdigits2 m.
Proof.
  intros H. rewrite (Zdigits2_log2 m H).
  replace (Z.log2 m + 1 - 1) with (Z.log2 m) by lia.
  apply (Z.log2_spec m H).
Qed.

Lemma Zdigits2_unique (m k : Z) :
  2 ^ (k - 1) <= m < 2 ^ k -> 0 < k -> Zdigits2 m = k.
Proof.
  intros H Hk.
  assert (0 < m) by (pose proof (Z.pow_pos_nonneg 2 (k - 1)); lia).
  rewrite (Zdigits2_log2 m) by assumption.
  rewrite (Z.log2_unique m (k - 1)); try lia.
  replace (Z.succ (k - 1)) with k by lia. assumption.
Qed.

Lemma Zdigits2_le (a b : Z) : 0 <= a <= b -> Zdigits2 a <= Zdigits2 b.
Proof.
  intros [Ha Hab]. destruct (Z.eq_dec a 0) as [->|Hn].
  - apply Zdigits2_nonneg.
  - rewrite !Zdigits2_log2 by lia.
    pose proof (Z.log2_le_mono a b Hab). lia.
Qed.

Lemma Zdigits2_lt_pow (m k : Z) : 0 <= m -> 0 <= k -> m < 2 ^ k -> Zdigits2 m <= k.
Proof.
  intros Hm Hk H. destruct (Z.eq_dec m 0) as [->|Hn]; [simpl; lia|].
  rewrite Zdigits2_log2 by lia.
  assert (Z.log2 m < k) by (apply Z.log2_lt_pow2; lia). lia.
Qed.

Lemma Zdigits2_ge_pow (m k : Z) : 0 <= k -> 2 ^ k <= m -> k + 1 <= Zdigits2 m.
Proof.
  intros Hk H.
  assert (0 < m) by (pose proof (Z.pow_pos_nonneg 2 k); lia).
  rewrite Zdigits2_log2 by lia.
  assert (k <= Z.log2 m) by (apply Z.log2_le_pow2; lia). lia.
Qed.

(** Dropping [n] low bits drops [n] digits. *)
Lemma Zdigits2_div_pow (m n : Z) :
  0 < m -> 0 <= n < Zdigits2 m -> Zdigits2 (m / 2 ^ n) = Zdigits2 m - n.
Proof.
  intros Hm Hn. pose proof (Zdigits2_bounds m Hm) as [Hlo Hhi].
  set (d := Zdigits2 m) in *.
  assert (Hp : 0 < 2 ^ n) by (apply Z.pow_pos_nonneg; lia).
  apply Zdigits2_unique; [|lia]. split.
  - apply Z.div_le_lower_bound; [assumption|].
    rewrite <- Z.pow_add_r by lia. replace (n + (d - n - 1)) with (d - 1) by lia.
    assumption.
  - apply Z.div_lt_upper_bound; [assumption|].
    rewrite <- Z.pow_add_r by lia. replace (n + (d - n)) with d by lia.
    assumption.
Qed.

Lemma Zdigits2_div_pow_0 (m n : Z) :
  0 <= m -> 0 <= n -> Zdigits2 m <= n -> m / 2 ^ n = 0.
Proof.
  intros Hm Hn H. destruct (Z.eq_dec m 0) as [->|Hz].
  - apply Z.div_0_l. pose proof (Z.pow_pos_nonneg 2 n). lia.
  - apply Z.div_small. split; [assumption|].
    pose proof (Zdigits2_bounds m ltac:(lia)) as [_ Hhi].
    eapply Z.lt_le_trans; [exact Hhi|].
    apply Z.pow_le_mono_r; lia.
Qed.

Lemma Zdigits2_mul_pow (m n : Z) :
  0 < m -> 0 <= n -> Zdigits2 (m * 2 ^ n) = Zdigits2 m + n.
Proof.
  intros Hm Hn. pose proof (Zdigits2_bounds m Hm) as [Hlo Hhi].
  pose proof (Zdigits2_pos m Hm).
  set (d := Zdigits2 m) in *.
  assert (Hp : 0 < 2 ^ n) by (apply Z.pow_pos_nonneg; lia).
  apply Zdigits2_unique; [|lia]. split.
  - replace (d + n - 1) with ((d - 1) + n) by lia.
    rewrite Z.pow_add_r by lia. nia.
  - rewrite Z.pow_add_r by lia. nia.
Qed.

End Digits.

Section Shift.

Lemma fexp_eq (e : Z) : fexp prec emax e = Z.max (e - 24) (-149).
Proof. reflexivity. Qed.

Lemma shr_1_m (r : shr_record) : 0 <= shr_m r -> shr_m (shr_1 r) = shr_m r / 2.
Proof.
  destruct r as [m b c]. simpl. intros H.
  destruct m as [|[p|p|]|p]; try lia; simpl;
    rewrite <- Z.div2_div; reflexivity.
Qed.

Lemma pow2_xO (p : positive) : 2 ^ Zpos p~0 = 2 ^ Zpos p * 2 ^ Zpos p.
Proof.
  replace (Zpos p~0) with (Zpos p + Zpos p) by lia.
  apply Z.pow_add_r; lia.
Qed.

Lemma pow2_xI (p : positive) : 2 ^ Zpos p~1 = 2 * (2 ^ Zpos p * 2 ^ Zpos p).
Proof.
  replace (Zpos p~1) with (1 + (Zpos p + Zpos p)) by lia.
  rewrite !Z.pow_add_r by lia. reflexivity.
Qed.

Lemma iter_shr_1_m (p : positive) :
  forall r, 0 <= shr_m r ->
            shr_m (iter_pos shr_1 p r) = shr_m r / 2 ^ Zpos p.
Proof.
  assert (Hpow : forall q, 0 < 2 ^ Zpos q) by (intros; apply Z.pow_pos_nonneg; lia).
  induction p as [p IH|p IH|]; intros r Hr; simpl iter_pos.
  - assert (H1 : 0 <= shr_m (shr_1 r))
      by (rewrite shr_1_m by assumption; apply Z.div_pos; lia).
    assert (H2 : 0 <= shr_m (iter_pos shr_1 p (shr_1 r)))
      by (rewrite IH by assumption; apply Z.div_pos; [assumption|apply Hpow]).
    rewrite IH, IH, shr_1_m by assumption.
    pose proof (Hpow p).
    rewrite !Z.div_div by lia. now rewrite pow2_xI.
  - assert (H2 : 0 <= shr_m (iter_pos shr_1 p r))
      by (rewrite IH by assumption; apply Z.div_pos; [assumption|apply Hpow]).
    rewrite IH, IH by assumption. pose proof (Hpow p).
    rewrite Z.div_div by lia. now rewrite pow2_xO.
  - rewrite shr_1_m by assumption. reflexivity.
Qed.

Lemma shr_m_of_loc (m : Z) (l : location) : shr_m (shr_record_of_loc m l) = m.
Proof. destruct l as [|[]]; reflexivity. Qed.

(** [shr_fexp] brings a mantissa with too many digits to the exponent of
    the format, dropping the low bits. *)
Lemma shr_fexp_spec (m e : Z) (l : location) :
  0 <= m -> e <= fexp prec emax (Zdigits2 m + e) ->
  snd (shr_fexp prec emax m e l) = fexp prec emax (Zdigits2 m + e)
  /\ shr_m (fst (shr_fexp prec emax m e l))
     = m / 2 ^ (fexp prec emax (Zdigits2 m + e) - e).
Proof.
  intros Hm He. unfold shr_fexp, shr.
  destruct (fexp prec emax (Zdigits2 m + e) - e) as [|p|p] eqn:En; simpl.
  - rewrite shr_m_of_loc, Z.div_1_r. split; [lia | reflexivity].
  - rewrite iter_shr_1_m by (rewrite shr_m_of_loc; assumption).
    rewrite shr_m_of_loc. split; [lia | reflexivity].
  - lia.
Qed.

Lemma round_nearest_even_bounds (m : Z) (l : location) :
  m <= round_nearest_even m l <= m + 1.
Proof.
  destruct l as [|[]]; simpl; try lia. destruct (Z.even m); lia.
Qed.

Lemma Zdigits2_succ (m : Z) : 0 <= m -> Zdigits2 (m + 1) <= Zdigits2 m + 1.
Proof.
  intros H. destruct (Z.eq_dec m 0) as [->|Hn]; [simpl; lia|].
  rewrite <- (Zdigits2_mul_pow m 1) by lia.
  apply Zdigits2_le. change (2 ^ 1) with 2. lia.
Qed.

End Shift.

Section Round.

Lemma shr_fexp_digits (m e : Z) (l : location) :
  0 <= m -> e <= fexp prec emax (Zdigits2 m + e) ->
  let m' := shr_m (fst (shr_fexp prec emax m e l)) in
  let e' := snd (shr_fexp prec emax m e l) in
  e' = fexp prec emax (Zdigits2 m + e) /\ 0 <= m'
  /\ ((0 < m' /\ Zdigits2 m' + e' = Zdigits2 m + e)
      \/ (m' = 0 /\ Zdigits2 m + e <= -149 /\ e' = -149)).
Proof.
  intros Hm He. cbv zeta.
  destruct (shr_fexp_spec m e l Hm He) as [-> ->].
  rewrite fexp_eq in *.
  set (d := Zdigits2 m). set (e' := Z.max (d + e - 24) (-149)).
  fold d in He. fold e' in He.
  assert (Hp : 0 < 2 ^ (e' - e)) by (apply Z.pow_pos_nonneg; lia).
  split; [reflexivity|]. split; [apply Z.div_pos; assumption|].
  destruct (Z_lt_le_dec (e' - e) d) as [Hlt|Hge].
  - left.
    assert (Hm' : 0 < m)
      by (destruct (Z.eq_dec m 0) as [E|E]; [subst m; simpl in d; lia | lia]).
    assert (Hd : Zdigits2 (m / 2 ^ (e' - e)) = d - (e' - e))
      by (apply Zdigits2_div_pow; [assumption | fold d; lia]).
    split; [|lia].
    destruct (Z.eq_dec (m / 2 ^ (e' - e)) 0) as [E|E].
    + rewrite E in Hd. simpl in Hd. lia.
    + pose proof (Z.div_pos m (2 ^ (e' - e)) Hm Hp). lia.
  - right. split; [|lia].
    apply Zdigits2_div_pow_0; [assumption | lia | assumption].
Qed.

(** What one rounding to the format returns, for a mantissa given with
    enough low bits: never a NaN, the sign it was given, a canonical
    mantissa within the exponent range, and a magnitude (position of the
    leading bit) that rounding moves up by one at most. *)
Lemma binary_round_aux_spec (s : bool) (mx ex : Z) (lx : location) :
  0 <= mx -> ex <= fexp prec emax (Zdigits2 mx + ex) ->
  match binary_round_aux prec emax s mx ex lx with
  | S754_zero s' => s' = s /\ Zdigits2 mx + ex <= -149
  | S754_infinity s' => s' = s /\ 128 <= Zdigits2 mx + ex
  | S754_nan => False
  | S754_finite s' m e =>
      s' = s /\ bounded prec emax m e = true
      /\ Zdigits2 mx + ex <= Zpos (digits2_pos m) + e
      /\ Zpos (digits2_pos m) + e <= Z.max (Zdigits2 mx + ex) (-149) + 1
  end.
Proof.
  intros Hm He. unfold binary_round_aux.
  pose proof (shr_fexp_digits mx ex lx Hm He) as H1. cbv zeta in H1.
  destruct (shr_fexp prec emax mx ex lx) as [r1 e1]. simpl fst in H1; simpl snd in H1.
  destruct H1 as (E1 & Hm1 & F1).
  set (mr := round_nearest_even (shr_m r1) (loc_of_shr_record r1)).
  pose proof (round_nearest_even_bounds (shr_m r1) (loc_of_shr_record r1)) as Hr.
  fold mr in Hr.
  assert (Hmr : 0 <= mr) by lia.
  pose proof (Zdigits2_le (shr_m r1) mr ltac:(lia)) as Hd1.
  pose proof (Zdigits2_succ (shr_m r1) Hm1) as Hd2.
  pose proof (Zdigits2_le mr (shr_m r1 + 1) ltac:(lia)) as Hd3.
  pose proof (Zdigits2_nonneg mr) as Hd4.
  rewrite fexp_eq in E1.
  assert (Hpre : e1 <= fexp prec emax (Zdigits2 mr + e1))
    by (rewrite fexp_eq; destruct F1 as [[_ F1]|[_ [_ F1]]]; lia).
  pose proof (shr_fexp_digits mr e1 loc_Exact Hmr Hpre) as H2. cbv zeta in H2.
  destruct (shr_fexp prec emax mr e1 loc_Exact) as [r2 e2].
  simpl fst in H2; simpl snd in H2.
  destruct H2 as (E2 & Hm2 & F2). rewrite fexp_eq in E2.
  assert (Hone : shr_m r1 = 0 -> Zdigits2 mr <= 1).
  { intros Hz. transitivity (Zdigits2 1); [|simpl; lia].
    apply Zdigits2_le. lia. }
  destruct (shr_m r2) as [|m2|m2] eqn:Em2.
  - split; [reflexivity|]. destruct F2 as [[F2 _]|(_ & F2 & _)]; [lia|].
    destruct F1 as [[_ F1]|(_ & F1 & _)]; lia.
  - destruct F2 as [[_ F2]|[F2 _]]; [|discriminate].
    change (Zdigits2 (Zpos m2)) with (Zpos (digits2_pos m2)) in F2.
    destruct (Z.leb e2 (emax - prec)) eqn:Hle.
    + apply Z.leb_le in Hle. unfold emax, prec in Hle.
      split; [reflexivity|]. split.
      * unfold bounded, canonical_mantissa. apply andb_true_iff. split.
        -- apply Z.eqb_eq. rewrite fexp_eq. lia.
        -- apply Z.leb_le. unfold emax, prec. lia.
      * destruct F1 as [[_ F1]|(F1 & F1' & F1'')]; [lia|].
        specialize (Hone F1). lia.
    + apply Z.leb_gt in Hle. unfold emax, prec in Hle.
      split; [reflexivity|].
      destruct F1 as [[_ F1]|(F1 & F1' & F1'')]; [lia|].
      specialize (Hone F1). lia.
  - lia.
Qed.

End Round.

Section Ops.

Lemma iter_xO_pow (m d : positive) :
  Zpos (Pos.iter xO m d) = Zpos m * 2 ^ Zpos d.
Proof.
  induction d as [|d IH] using Pos.peano_ind.
  - simpl. lia.
  - rewrite Pos.iter_succ, Pos2Z.inj_succ, Z.pow_succ_r by lia.
    rewrite Pos2Z.inj_xO, IH. lia.
Qed.

Lemma shl_align_spec (mx : positive) (ex ex' : Z) :
  snd (shl_align mx ex ex') = Z.min ex ex'
  /\ Zpos (fst (shl_align mx ex ex')) = Zpos mx * 2 ^ (ex - Z.min ex ex').
Proof.
  unfold shl_align. destruct (ex' - ex) as [|d|d] eqn:E; simpl.
  - replace (Z.min ex ex') with ex by lia. rewrite Z.sub_diag. simpl. lia.
  - replace (Z.min ex ex') with ex by lia. rewrite Z.sub_diag. simpl. lia.
  - replace (Z.min ex ex') with ex' by lia.
    replace (ex - ex') with (Zpos d) by lia.
    split; [reflexivity | apply iter_xO_pow].
Qed.

Lemma binary_round_spec (s : bool) (mx : positive) (ex : Z) :
  match binary_round prec emax s mx ex with
  | S754_zero s' => s' = s /\ Zpos (digits2_pos mx) + ex <= -149
  | S754_infinity s' => s' = s /\ 128 <= Zpos (digits2_pos mx) + ex
  | S754_nan => False
  | S754_finite s' m e =>
      s' = s /\ bounded prec emax m e = true
      /\ Zpos (digits2_pos mx) + ex <= Zpos (digits2_pos m) + e
      /\ Zpos (digits2_pos m) + e <= Z.max (Zpos (digits2_pos mx) + ex) (-149) + 1
  end.
Proof.
  unfold binary_round.
  destruct (shl_align_spec mx ex (fexp prec emax (Zpos (digits2_pos mx) + ex)))
    as [Hz Hm].
  destruct (shl_align mx ex _) as [mz ez]. cbn [fst snd] in Hz, Hm.
  assert (Hd : Zdigits2 (Zpos mz) + ez = Zpos (digits2_pos mx) + ex).
  { rewrite Hm, Zdigits2_mul_pow by lia.
    change (Zdigits2 (Zpos mx)) with (Zpos (digits2_pos mx)). lia. }
  pose proof (binary_round_aux_spec s (Zpos mz) ez loc_Exact) as H.
  rewrite Hd in H. apply H; lia.
Qed.

Lemma valid_binary_round (s : bool) (mx : positive) (ex : Z) :
  valid (binary_round prec emax s mx ex) = true.
Proof.
  pose proof (binary_round_spec s mx ex) as H.
  destruct (binary_round prec emax s mx ex); simpl; try reflexivity.
  apply H.
Qed.

Lemma valid_binary_normalize (m e : Z) (sz : bool) :
  valid (binary_normalize prec emax m e sz) = true.
Proof.
  destruct m; simpl; [reflexivity | apply valid_binary_round ..].
Qed.

Lemma valid_add (x y : spec_float) :
  valid x = true -> valid y = true -> valid (SFadd prec emax x y) = true.
Proof.
  destruct x as [sx|sx| |sx mx ex], y as [sy|sy| |sy my ey]; intros Hx Hy;
    try assumption; try reflexivity;
    try (destruct sx, sy; reflexivity).
  apply valid_binary_normalize.
Qed.

Lemma valid_sub (x y : spec_float) :
  valid x = true -> valid y = true -> valid (SFsub prec emax x y) = true.
Proof.
  destruct x as [sx|sx| |sx mx ex], y as [sy|sy| |sy my ey]; intros Hx Hy;
    try assumption; try reflexivity;
    try (destruct sx, sy; reflexivity).
  apply valid_binary_normalize.
Qed.

Lemma bounded_inv (m : positive) (e : Z) :
  bounded prec emax m e = true ->
  e = Z.max (Zpos (digits2_pos m) + e - 24) (-149) /\ e <= 104.
Proof.
  unfold bounded, canonical_mantissa. intros H.
  apply andb_true_iff in H. destruct H as [H1 H2].
  apply Z.eqb_eq in H1. apply Z.leb_le in H2. rewrite fexp_eq in H1.
  unfold emax, prec in H2. lia.
Qed.

Lemma valid_mul (x y : spec_float) :
  valid x = true -> valid y = true -> valid (SFmul prec emax x y) = true.
Proof.
  destruct x as [sx|sx| |sx mx ex], y as [sy|sy| |sy my ey]; intros Hx Hy;
    try reflexivity.
  simpl in Hx, Hy. apply bounded_inv in Hx, Hy.
  unfold SFmul.
  pose proof (binary_round_aux_spec (xorb sx sy) (Zpos (mx * my)) (ex + ey) loc_Exact) as H.
  assert (Hd : Zpos (digits2_pos mx) + Zpos (digits2_pos my) - 1
               <= Zdigits2 (Zpos (mx * my))).
  { pose proof (Zdigits2_bounds (Zpos mx) ltac:(lia)) as [Hx1 _].
    pose proof (Zdigits2_bounds (Zpos my) ltac:(lia)) as [Hy1 _].
    simpl Zdigits2 in Hx1, Hy1.
    replace (Zpos (digits2_pos mx) + Zpos (digits2_pos my) - 1)
      with ((Zpos (digits2_pos mx) - 1 + (Zpos (digits2_pos my) - 1)) + 1) by lia.
    apply Zdigits2_ge_pow; [lia|].
    rewrite Z.pow_add_r, Pos2Z.inj_mul by lia.
    apply Z.mul_le_mono_nonneg; try assumption; apply Z.pow_nonneg; lia. }
  destruct (binary_round_aux prec emax (xorb sx sy) (Zpos (mx * my)) (ex + ey) loc_Exact);
    simpl; try reflexivity.
  apply H; [lia|]. rewrite fexp_eq. lia.
Qed.

(** The quotient of the division, before rounding. *)
Lemma SFdiv_core_binary_eq (mx my : positive) (ex ey : Z) :
  let e' := Z.min (fexp prec emax (Zpos (digits2_pos mx) + ex
                                   - (Zpos (digits2_pos my) + ey)))
                  (ex - ey) in
  exists l,
    SFdiv_core_binary prec emax (Zpos mx) ex (Zpos my) ey
    = (Zpos mx * 2 ^ (ex - ey - e') / Zpos my, e', l).
Proof.
  intros e'. unfold SFdiv_core_binary.
  change (Zdigits2 (Zpos mx)) with (Zpos (digits2_pos mx)).
  change (Zdigits2 (Zpos my)) with (Zpos (digits2_pos my)).
  fold e'.
  assert (Hs : 0 <= ex - ey - e') by (unfold e'; lia).
  assert (Hm : match ex - ey - e' with
               | 0 => Zpos mx
               | Zpos _ => Z.shiftl (Zpos mx) (ex - ey - e')
               | Zneg _ => 0
               end = Zpos mx * 2 ^ (ex - ey - e')).
  { destruct (ex - ey - e') as [|p|p] eqn:E.
    - simpl. lia.
    - apply Z.shiftl_mul_pow2. lia.
    - lia. }
  rewrite Hm. unfold Z.div.
  destruct (Z.div_eucl (Zpos mx * 2 ^ (ex - ey - e')) (Zpos my)) as [q r].
  eexists. reflexivity.
Qed.

Lemma div_digits_lower (m1 m2 s : Z) :
  0 < m1 -> 0 < m2 -> 0 <= s ->
  Zdigits2 m1 + s - Zdigits2 m2 <= Zdigits2 (m1 * 2 ^ s / m2).
Proof.
  intros H1 H2 Hs.
  pose proof (Zdigits2_bounds m1 H1) as [B1 _].
  pose proof (Zdigits2_bounds m2 H2) as [_ B2].
  pose proof (Zdigits2_pos m1 H1). pose proof (Zdigits2_pos m2 H2).
  set (d1 := Zdigits2 m1) in *. set (d2 := Zdigits2 m2) in *.
  destruct (Z_lt_le_dec (d1 - 1 + s - d2) 0) as [Hk|Hk].
  - pose proof (Zdigits2_nonneg (m1 * 2 ^ s / m2)). lia.
  - replace (d1 + s - d2) with ((d1 - 1 + s - d2) + 1) by lia.
    apply Zdigits2_ge_pow; [assumption|].
    apply Z.div_le_lower_bound; [assumption|].
    transitivity (2 ^ d2 * 2 ^ (d1 - 1 + s - d2)).
    + apply Z.mul_le_mono_nonneg_r; [apply Z.pow_nonneg; lia | lia].
    + rewrite <- Z.pow_add_r by lia.
      replace (d2 + (d1 - 1 + s - d2)) with ((d1 - 1) + s) by lia.
      rewrite Z.pow_add_r by lia.
      apply Z.mul_le_mono_nonneg_r; [apply Z.pow_nonneg; lia | assumption].
Qed.

Lemma div_finite_spec (sx sy : bool) (mx my : positive) (ex ey : Z) :
  let e' := Z.min (fexp prec emax (Zpos (digits2_pos mx) + ex
                                   - (Zpos (digits2_pos my) + ey)))
                  (ex - ey) in
  let q := Zpos mx * 2 ^ (ex - ey - e') / Zpos my in
  match SFdiv prec emax (S754_finite sx mx ex) (S754_finite sy my ey) with
  | S754_zero s' => s' = xorb sx sy /\ Zdigits2 q + e' <= -149
  | S754_infinity s' => s' = xorb sx sy /\ 128 <= Zdigits2 q + e'
  | S754_nan => False
  | S754_finite s' m e =>
      s' = xorb sx sy /\ bounded prec emax m e = true
      /\ Zdigits2 q + e' <= Zpos (digits2_pos m) + e
      /\ Zpos (digits2_pos m) + e <= Z.max (Zdigits2 q + e') (-149) + 1
  end.
Proof.
  intros e' q. unfold SFdiv.
  destruct (SFdiv_core_binary_eq mx my ex ey) as [l ->]. fold e'. fold q.
  assert (Hs : 0 <= ex - ey - e') by (unfold e'; lia).
  assert (Hq : 0 <= q).
  { apply Z.div_pos; [|lia].
    apply Z.mul_nonneg_nonneg; [lia | apply Z.pow_nonneg; lia]. }
  apply binary_round_aux_spec; [assumption|].
  pose proof (div_digits_lower (Zpos mx) (Zpos my) (ex - ey - e')
                               ltac:(lia) ltac:(lia) Hs) as Hd.
  fold q in Hd. simpl Zdigits2 in Hd at 1 2.
  rewrite fexp_eq. unfold e' in *. rewrite fexp_eq in *. lia.
Qed.

Lemma valid_div (x y : spec_float) : valid (SFdiv prec emax x y) = true.
Proof.
  destruct x as [sx|sx| |sx mx ex], y as [sy|sy| |sy my ey]; try reflexivity.
  pose proof (div_finite_spec sx sy mx my ex ey) as H. cbv zeta in H.
  destruct (SFdiv prec emax (S754_finite sx mx ex) (S754_finite sy my ey));
    try reflexivity.
  apply H.
Qed.

End Ops.

Section Exact.

Lemma shr_1_double (k : Z) :
  0 <= k ->
  shr_1 {| shr_m := 2 * k; shr_r := false; shr_s := false |}
  = {| shr_m := k; shr_r := false; shr_s := false |}.
Proof. destruct k; simpl; intros; try reflexivity; lia. Qed.

Lemma iter_shr_1_exact (p : positive) :
  forall k, 0 <= k ->
    iter_pos shr_1 p {| shr_m := k * 2 ^ Zpos p; shr_r := false; shr_s := false |}
    = {| shr_m := k; shr_r := false; shr_s := false |}.
Proof.
  assert (Hnn : forall k q, 0 <= k -> 0 <= k * 2 ^ Zpos q)
    by (intros; apply Z.mul_nonneg_nonneg; [assumption | apply Z.pow_nonneg; lia]).
  induction p as [p IH|p IH|]; intros k Hk; cbn [iter_pos].
  - replace (k * 2 ^ Zpos p~1) with (2 * (k * 2 ^ Zpos p * 2 ^ Zpos p))
      by (rewrite pow2_xI; ring).
    rewrite shr_1_double by auto. rewrite IH by auto. apply IH; assumption.
  - replace (k * 2 ^ Zpos p~0) with (k * 2 ^ Zpos p * 2 ^ Zpos p)
      by (rewrite pow2_xO; ring).
    rewrite IH by auto. apply IH; assumption.
  - replace (k * 2 ^ 1) with (2 * k) by lia. apply shr_1_double; assumption.
Qed.

Lemma shr_fexp_exact (m : positive) (e n : Z) :
  bounded prec emax m e = true -> 0 <= n ->
  shr_fexp prec emax (Zpos m * 2 ^ n) (e - n) loc_Exact
  = ({| shr_m := Zpos m; shr_r := false; shr_s := false |}, e).
Proof.
  intros Hb Hn. apply bounded_inv in Hb. destruct Hb as [Hc _].
  unfold shr_fexp. rewrite Zdigits2_mul_pow by lia.
  change (Zdigits2 (Zpos m)) with (Zpos (digits2_pos m)).
  replace (fexp prec emax (Zpos (digits2_pos m) + n + (e - n)) - (e - n)) with n
    by (rewrite fexp_eq; lia).
  unfold shr, shr_record_of_loc. destruct n as [|p|p].
  - rewrite Z.pow_0_r, Z.mul_1_r, Z.sub_0_r. reflexivity.
  - rewrite iter_shr_1_exact by lia. f_equal. lia.
  - lia.
Qed.

(** A value of the format, given with extra zero bits, rounds to itself. *)
Lemma binary_round_aux_exact (s : bool) (m : positive) (e n : Z) :
  bounded prec emax m e = true -> 0 <= n ->
  binary_round_aux prec emax s (Zpos m * 2 ^ n) (e - n) loc_Exact
  = S754_finite s m e.
Proof.
  intros Hb Hn. unfold binary_round_aux.
  rewrite (shr_fexp_exact m e n Hb Hn).
  cbn [shr_m shr_r shr_s loc_of_shr_record round_nearest_even].
  pose proof (shr_fexp_exact m e 0 Hb ltac:(lia)) as H0.
  rewrite Z.pow_0_r, Z.mul_1_r, Z.sub_0_r in H0. rewrite H0.
  cbn [shr_m]. apply bounded_inv in Hb. destruct Hb as [_ Hb].
  replace (Z.leb e (emax - prec)) with true
    by (symmetry; apply Z.leb_le; unfold emax, prec; lia).
  reflexivity.
Qed.

(** Multiplying by 1.0 changes no float32. *)
Lemma mul_one_l (x : spec_float) :
  valid x = true -> SFmul prec emax one x = x.
Proof.
  destruct x as [s|s| |s m e]; intros Hv; try reflexivity.
  unfold one, SFmul. cbn [xorb].
  replace (Zpos (8388608 * m)) with (Zpos m * 2 ^ 23) by lia.
  replace (-23 + e) with (e - 23) by lia.
  apply binary_round_aux_exact; [exact Hv | lia].
Qed.

Lemma finite_le_bound (s : bool) (m M : positive) (e E : Z) :
e <= E -> Zpos m <= Zpos M ->
SFleb (S754_finite s m e) (S754_finite false M E) = true
/\ SFleb (S754_finite true M E) (S754_finite s m e) = true.
Proof.
intros He Hm. unfold SFleb, SFcompare.
change (Pos.compare_cont Eq m M) with (Z.compare (Zpos m) (Zpos M)).
change (Pos.compare_cont Eq M m) with (Z.compare (Zpos M) (Zpos m)).
destruct s; split; try reflexivity.
- destruct (Z.compare_spec E e) as [H|H|H]; try reflexivity; try lia.
  destruct (Z.compare_spec (Zpos M) (Zpos m)) as [H2|H2|H2];
    try reflexivity; lia.
- destruct (Z.compare_spec e E) as [H|H|H]; try reflexivity; try lia.
  destruct (Z.compare_spec (Zpos m) (Zpos M)) as [H2|H2|H2];
    try reflexivity; lia.
Qed.

(** Every float32 that is not an infinity lies between [-MaxFloat32] and
    [MaxFloat32]. *)
Lemma valid_le_MaxFloat32 (x : spec_float) :
valid x = true -> is_finite x = true ->
SFleb x MaxFloat32 = true /\ SFleb (SFopp MaxFloat32) x = true.
Proof.
destruct x as [s|s| |s m e]; intros Hv Hf; try discriminate.
- split; reflexivity.
- simpl in Hv. apply bounded_inv in Hv. destruct Hv as [Hc He].
  pose proof (Zdigits2_bounds (Zpos m) ltac:(lia)) as [_ Hhi].
  change (Zdigits2 (Zpos m)) with (Zpos (digits2_pos m)) in Hhi.
  assert (Hm : Zpos m < 2 ^ 24)
    by (eapply Z.lt_le_trans; [exact Hhi | apply Z.pow_le_mono_r; lia]).
  change (2 ^ 24) with 16777216 in Hm.
  apply finite_le_bound; lia.
Qed.

End Exact.

(** ** The integral discharge factor *)

Section Discharge.

(** The quotient of two positive floats, the dividend not below the
    divisor, is at least one: [+Inf], or a float whose leading bit has
    weight [2^0] or more. *)
Lemma div_ge_one (x y : float32) :
  valid x = true -> valid y = true -> is_finite y = true ->
  ltb zero y = true -> leb y x = true ->
  div x y = pinf
  \/ exists m e, div x y = S754_finite false m e
                 /\ bounded prec emax m e = true
                 /\ 1 <= Zpos (digits2_pos m) + e.
Proof.
  intros Hx Hy Hfy Hpos Hle.
  destruct y as [sy|sy| |sy my ey]; try discriminate.
  destruct sy; [discriminate|].
  destruct x as [sx|sx| |sx mx ex]; try discriminate.
  - destruct sx; [discriminate|]. left. reflexivity.
  - destruct sx; [discriminate|].
    simpl in Hx, Hy. apply bounded_inv in Hx, Hy.
    destruct Hx as [Hcx Hbx], Hy as [Hcy Hby].
    pose proof (Zdigits2_bounds (Zpos mx) ltac:(lia)) as [Hx1 Hx2].
    pose proof (Zdigits2_bounds (Zpos my) ltac:(lia)) as [Hy1 Hy2].
    change (Zdigits2 (Zpos mx)) with (Zpos (digits2_pos mx)) in Hx1, Hx2.
    change (Zdigits2 (Zpos my)) with (Zpos (digits2_pos my)) in Hy1, Hy2.
    (* the order of the floats, on their mantissas *)
    assert (Hrel : ey <= ex /\ Zpos my <= Zpos mx * 2 ^ (ex - ey)).
    { unfold leb, SFleb, SFcompare in Hle.
      change (Pos.compare_cont Eq my mx) with (Pos.compare my mx) in Hle.
      destruct (ey ?= ex) eqn:E.
      - apply Z.compare_eq in E. subst ey. rewrite Z.sub_diag, Z.pow_0_r.
        destruct (my ?= mx)%positive eqn:E2; try discriminate.
        + apply Pos.compare_eq in E2. subst. lia.
        + assert (my < mx)%positive by exact E2. lia.
      - assert (Hlt : ey < ex) by exact E. split; [lia|].
        assert (Hd : Zpos (digits2_pos mx) = 24) by lia.
        rewrite Hd in Hx1. change (2 ^ (24 - 1)) with 8388608 in Hx1.
        assert (Hm2 : Zpos my < 2 ^ 24)
          by (eapply Z.lt_le_trans; [exact Hy2 | apply Z.pow_le_mono_r; lia]).
        change (2 ^ 24) with 16777216 in Hm2.
        assert (Hp : 2 ^ 1 <= 2 ^ (ex - ey)) by (apply Z.pow_le_mono_r; lia).
        change (2 ^ 1) with 2 in Hp. nia.
      - discriminate. }
    destruct Hrel as [Hee Hrel].
    pose proof (div_finite_spec false false mx my ex ey) as H.
    cbv zeta in H.
    set (e' := Z.min (fexp prec emax (Zpos (digits2_pos mx) + ex
                                      - (Zpos (digits2_pos my) + ey)))
                     (ex - ey)) in *.
    set (q := Zpos mx * 2 ^ (ex - ey - e') / Zpos my) in *.
    assert (Hq : 1 <= Zdigits2 q + e').
    { destruct (Z_le_gt_dec e' 0) as [Hneg|Hposv].
      - assert (Hs : ex - ey - e' = (ex - ey) + (- e')) by lia.
        assert (2 ^ (- e') <= q).
        { unfold q. apply Z.div_le_lower_bound; [lia|].
          rewrite Hs, Z.pow_add_r by lia.
          assert (0 < 2 ^ (- e')) by (apply Z.pow_pos_nonneg; lia). nia. }
        pose proof (Zdigits2_ge_pow q (- e') ltac:(lia) ltac:(assumption)). lia.
      - pose proof (Zdigits2_nonneg q). lia. }
    unfold div.
    destruct (SFdiv prec emax (S754_finite false mx ex) (S754_finite false my ey))
      as [s'|s'| |s' m e].
    + destruct H as [_ H]. lia.
    + destruct H as [-> _]. left. reflexivity.
    + contradiction.
    + destruct H as (-> & Hb & Hlo & _). right. exists m, e.
      split; [reflexivity|]. split; [assumption | lia].
Qed.

(** One minus a float that is at least one is a zero or negative. *)
Lemma sub_one_nonpos (q : float32) :
  (q = pinf
   \/ exists m e, q = S754_finite false m e
                  /\ bounded prec emax m e = true
                  /\ 1 <= Zpos (digits2_pos m) + e) ->
  sub one q = zero
  \/ (signbit (sub one q) = true /\ is_nan (sub one q) = false).
Proof.
  intros [->|(m & e & -> & Hb & Hd)].
  - right. split; reflexivity.
  - apply bounded_inv in Hb. destruct Hb as [Hc _].
    pose proof (Zdigits2_bounds (Zpos m) ltac:(lia)) as [Hlo _].
    change (Zdigits2 (Zpos m)) with (Zpos (digits2_pos m)) in Hlo.
    assert (Hdm : Zpos (digits2_pos m) = 24) by lia.
    rewrite Hdm in Hlo. change (2 ^ (24 - 1)) with 8388608 in Hlo.
    unfold sub, one, SFsub, cond_Zopp.
    replace (Z.min (-23) e) with (-23) by lia.
    change (shl_align 8388608 (-23) (-23)) with (8388608%positive, -23).
    cbn [fst].
    destruct (shl_align_spec m e (-23)) as [_ Hm].
    replace (Z.min e (-23)) with (-23) in Hm by lia.
    set (mz := fst (shl_align m e (-23))) in *.
    assert (Hge : 8388608 <= Zpos mz).
    { rewrite Hm.
      assert (1 <= 2 ^ (e - -23))
        by (pose proof (Z.pow_pos_nonneg 2 (e - -23)); lia).
      nia. }
    destruct (8388608 - Zpos mz) as [|p|p] eqn:Ez.
    + left. reflexivity.
    + lia.
    + right. cbn [binary_normalize].
      pose proof (binary_round_spec true p (-23)) as H.
      destruct (binary_round prec emax true p (-23)) as [s'|s'| |s' m' e'].
      * destruct H as [-> _]. split; reflexivity.
      * destruct H as [-> _]. split; reflexivity.
      * contradiction.
      * destruct H as [-> _]. split; reflexivity.
Qed.

Lemma clamp_nonpos_zero_one (f : float32) :
  f = zero \/ (signbit f = true /\ is_nan f = false) ->
  max zero (min f one) = zero.
Proof.
  intros [->|[Hs Hn]]; [reflexivity|].
  destruct f as [s|s| |s m e]; simpl in Hs; try discriminate; subst s;
    reflexivity.
Qed.

(** Once the elapsed time reaches the time constant, the factor is [+0]. *)
Lemma discharge_factor_zero (x T : float32) :
  valid x = true -> valid T = true -> is_finite T = true ->
  ltb zero T = true -> leb T x = true ->
  discharge_factor x T = zero.
Proof.
  intros Hx HT Hf Hpos Hle. unfold discharge_factor.
  apply clamp_nonpos_zero_one, sub_one_nonpos, div_ge_one; assumption.
Qed.

(** With no time elapsed the factor is one. *)
Lemma discharge_factor_one (T : float32) :
  ltb zero T = true -> discharge_factor (seconds 0) T = one.
Proof.
  destruct T as [s|s| |s m e]; try discriminate; destruct s; try discriminate;
    intros _; reflexivity.
Qed.

(** Between the two, the factor is the quotient's complement itself. *)
Lemma discharge_factor_between (x T : float32) :
  ltb zero (one - x / T)%f32 = true -> ltb (one - x / T)%f32 one = true ->
  discharge_factor x T = (one - x / T)%f32.
Proof.
  unfold discharge_factor. set (f := (one - x / T)%f32).
  intros H0 H1.
  assert (Hm : min f one = f).
  { unfold min. unfold ltb, SFltb in H1.
    destruct (SFcompare f one) as [[]|]; try discriminate. reflexivity. }
  rewrite Hm. unfold max. unfold ltb, SFltb in H0.
  destruct (SFcompare zero f) as [[]|]; try discriminate. reflexivity.
Qed.

Lemma min_comm (x y : float32) : min x y = min y x.
Proof.
  unfold min. rewrite (compare_antisym x y).
  destruct (SFcompare x y) as [[]|] eqn:E; simpl; try reflexivity.
  destruct (compare_Eq_inv _ _ E) as [->|[Hx Hy]].
  - destruct (signbit y); reflexivity.
  - destruct x as [sx| | |], y as [sy| | |]; try discriminate.
    destruct sx, sy; reflexivity.
Qed.

(** The factor is the clamp of [1 - dt/T] to [[0, 1]]. *)
Lemma discharge_factor_clamp (x T : float32) :
  discharge_factor x T = clamp (one - x / T)%f32 zero one.
Proof. unfold discharge_factor, clamp. now rewrite min_comm. Qed.

Lemma discharge_factor_range (x T : float32) :
  is_nan (discharge_factor x T) = true
  \/ within zero one (discharge_factor x T).
Proof.
  rewrite discharge_factor_clamp. unfold clamp.
  destruct (is_nan (one - x / T)%f32) eqn:E.
  - left. rewrite clamp_is_nan, E. reflexivity.
  - right. apply clamp_bounds; [reflexivity | assumption].
Qed.

Lemma mul_zero_finite (x : float32) :
  is_finite x = true -> is_zero (zero * x)%f32 = true.
Proof. destruct x; intros H; try discriminate; reflexivity. Qed.

End Discharge.

(** ** NaN is absorbing *)

Section NaN.

Lemma add_nan_l (y : float32) : (nan + y)%f32 = nan.
Proof. reflexivity. Qed.
Lemma add_nan_r (x : float32) : (x + nan)%f32 = nan.
Proof. destruct x; reflexivity. Qed.
Lemma sub_nan_l (y : float32) : (nan - y)%f32 = nan.
Proof. reflexivity. Qed.
Lemma sub_nan_r (x : float32) : (x - nan)%f32 = nan.
Proof. destruct x; reflexivity. Qed.
Lemma mul_nan_l (y : float32) : (nan * y)%f32 = nan.
Proof. reflexivity. Qed.
Lemma mul_nan_r (x : float32) : (x * nan)%f32 = nan.
Proof. destruct x; reflexivity. Qed.
Lemma div_nan_l (y : float32) : (nan / y)%f32 = nan.
Proof. reflexivity. Qed.
Lemma div_nan_r (x : float32) : (x / nan)%f32 = nan.
Proof. destruct x; reflexivity. Qed.

Lemma is_nan_eq (x : float32) : is_nan x = true -> x = nan.
Proof. destruct x; intros H; try discriminate; reflexivity. Qed.

Lemma sub_is_nan (x y : float32) :
  is_nan x || is_nan y = true -> (x - y)%f32 = nan.
Proof.
  intros H. apply orb_true_iff in H. destruct H as [H|H];
    apply is_nan_eq in H; subst; [apply sub_nan_l | apply sub_nan_r].
Qed.

End NaN.

Create Rewrite HintDb nan.
#[local] Hint Rewrite add_nan_l add_nan_r sub_nan_l sub_nan_r mul_nan_l
  mul_nan_r div_nan_l div_nan_r min_nan_l min_nan_r max_nan_l max_nan_r
  : nan.

(** ** The clamp of the state fields *)

Section ClampMax.

Lemma clampMax_not_inf (x : float32) : is_inf (clampMax x) = false.
Proof. apply clamp_not_inf; reflexivity. Qed.

Lemma clampMax_nan : clampMax nan = nan.
Proof. reflexivity. Qed.

(** On the floats of the format, the clamp to [[-MaxFloat32, MaxFloat32]]
    replaces the two infinities and nothing else. *)
Lemma clampMax_valid (x : float32) :
  valid x = true -> clampMax x = replaceInf x.
Proof.
  intros Hv. destruct x as [s|s| |s m e] eqn:Ex.
  - destruct s; reflexivity.
  - destruct s; reflexivity.
  - reflexivity.
  - rewrite <- Ex in *.
    assert (Hf : is_finite x = true) by (subst x; reflexivity).
    destruct (valid_le_MaxFloat32 x Hv Hf) as [Hhi Hlo].
    destruct (clamp_inside (- MaxFloat32)%f32 MaxFloat32 x Hlo Hhi) as [_ H].
    unfold clampMax, clamp. rewrite H by (subst x; reflexivity).
    subst x. reflexivity.
Qed.

Lemma valid_min (x y : float32) :
  valid x = true -> valid y = true -> valid (min x y) = true.
Proof.
  intros Hx Hy.
  destruct (min_cases x y) as [[-> _]|[[-> _]|[-> _]]]; auto.
Qed.

Lemma valid_max (x y : float32) :
  valid x = true -> valid y = true -> valid (max x y) = true.
Proof.
  intros Hx Hy.
  destruct (max_cases x y) as [[-> _]|[[-> _]|[-> _]]]; auto.
Qed.

Lemma valid_clampMax (x : float32) :
  valid x = true -> valid (clampMax x) = true.
Proof.
  intros H. apply valid_max; [reflexivity|].
  apply valid_min; [reflexivity | assumption].
Qed.

Lemma valid_seconds (d : Duration) : valid (seconds d) = true.
Proof. apply valid_div. Qed.

Lemma valid_of_Z (n : Z) : valid (of_Z n) = true.
Proof. apply valid_binary_normalize. Qed.

End ClampMax.

(** ** Runs of updates *)

Section Runs.

Lemma fold_left_last {A B : Type} (f : A -> B -> A) (l : list B) (a : A) :
  l <> [] -> exists l' b, l = l' ++ [b] /\ fold_left f l a = f (fold_left f l' a) b.
Proof.
  intros H. destruct (exists_last H) as (l' & b & ->).
  exists l', b. split; [reflexivity|]. now rewrite fold_left_app.
Qed.

Lemma AW_Updates_Config (c : AW.AntiWindupController) inputs :
  AW.Config (AW.Updates c inputs) = AW.Config c.
Proof.
  revert c. induction inputs as [|i l IH]; intros c; [reflexivity|].
  unfold AW.Updates in *. simpl. now rewrite IH.
Qed.

Lemma TR_Updates_Config (c : TR.TrackingController) inputs :
  TR.Config (TR.Updates c inputs) = TR.Config c.
Proof.
  revert c. induction inputs as [|i l IH]; intros c; [reflexivity|].
  unfold TR.Updates in *. simpl. now rewrite IH.
Qed.

Lemma PI_Updates_Config (c : PI.PIController) inputs :
  PI.Config (PI.Updates c inputs) = PI.Config c.
Proof.
  revert c. induction inputs as [|i l IH]; intros c; [reflexivity|].
  unfold PI.Updates in *. simpl. now rewrite IH.
Qed.

Lemma PID_Updates_Config (c : PID.Controller) inputs :
  PID.Config (PID.Updates c inputs) = PID.Config c.
Proof.
  revert c. induction inputs as [|i l IH]; intros c; [reflexivity|].
  unfold PID.Updates in *. simpl. now rewrite IH.
Qed.

(** A non-empty run ends with an [Update], from a controller with the
    configuration the run started with. *)
Lemma AW_Updates_last (c : AW.AntiWindupController) inputs :
  inputs <> [] ->
  exists c' i, AW.Updates c inputs = AW.Update c' i
               /\ AW.Config c' = AW.Config c.
Proof.
  intros H. destruct (fold_left_last AW.Update inputs c H) as (l & i & -> & E).
  exists (AW.Updates c l), i. split; [exact E | apply AW_Updates_Config].
Qed.

Lemma TR_Updates_last (c : TR.TrackingController) inputs :
  inputs <> [] ->
  exists c' i, TR.Updates c inputs = TR.Update c' i
               /\ TR.Config c' = TR.Config c.
Proof.
  intros H. destruct (fold_left_last TR.Update inputs c H) as (l & i & -> & E).
  exists (TR.Updates c l), i. split; [exact E | apply TR_Updates_Config].
Qed.

Lemma PI_Updates_last (c : PI.PIController) inputs :
  inputs <> [] ->
  exists c' i, PI.Updates c inputs = PI.Update c' i
               /\ PI.Config c' = PI.Config c.
Proof.
  intros H. destruct (fold_left_last PI.Update inputs c H) as (l & i & -> & E).
  exists (PI.Updates c l), i. split; [exact E | apply PI_Updates_Config].
Qed.

End Runs.

(** ** The update laws of the anti-windup and tracking controllers *)

Section UpdateLaws.

(** The state an [Update] of the anti-windup controller stores, in the
    vocabulary of the specification. *)
Lemma AW_Update_State (c : AW.AntiWindupController)
      (input : AW.AntiWindupControllerInput) :
  let cfg := AW.Config c in
  let st := AW.State c in
  let dt := seconds (AW.SamplingInterval input) in
  let tau := seconds (AW.LowPassTimeConstant cfg) in
  let e := (AW.ReferenceSignal input - AW.ActualSignal input)%f32 in
  let I := integral_law (AW.ControlErrorIntegrand st) dt
                        (AW.ControlErrorIntegral st) in
  let D := lowpass_law tau dt e (AW.ControlError st)
                       (AW.ControlErrorDerivative st) in
  let u := (e * AW.ProportionalGain cfg + AW.IntegralGain cfg * I
            + AW.DerivativeGain cfg * D + AW.FeedForwardSignal input)%f32 in
  let y := clamp u (AW.MinOutput cfg) (AW.MaxOutput cfg) in
  AW.State (AW.Update c input)
  = {| AW.ControlError := clampMax e;
       AW.ControlErrorIntegrand :=
         clampMax (e + AW.AntiWindUpGain cfg * (y - u))%f32;
       AW.ControlErrorIntegral := clampMax I;
       AW.ControlErrorDerivative := clampMax D;
       AW.ControlSignal := y;
       AW.UnsaturatedControlSignal := u |}
  /\ AW.Config (AW.Update c input) = cfg.
Proof. split; reflexivity. Qed.

Lemma TR_Update_State (c : TR.TrackingController)
      (input : TR.TrackingControllerInput) :
  let cfg := TR.Config c in
  let st := TR.State c in
  let dt := seconds (TR.SamplingInterval input) in
  let tau := seconds (TR.LowPassTimeConstant cfg) in
  let e := (TR.ReferenceSignal input - TR.ActualSignal input)%f32 in
  let I := integral_law (TR.ControlErrorIntegrand st) dt
                        (TR.ControlErrorIntegral st) in
  let D := lowpass_law tau dt e (TR.ControlError st)
                       (TR.ControlErrorDerivative st) in
  let u := (e * TR.ProportionalGain cfg + TR.IntegralGain cfg * I
            + TR.DerivativeGain cfg * D + TR.FeedForwardSignal input)%f32 in
  let y := clamp u (TR.MinOutput cfg) (TR.MaxOutput cfg) in
  TR.State (TR.Update c input)
  = {| TR.ControlError := clampMax e;
       TR.ControlErrorIntegrand :=
         clampMax (e + TR.AntiWindUpGain cfg
                       * (TR.AppliedControlSignal input - u))%f32;
       TR.ControlErrorIntegral := clampMax I;
       TR.ControlErrorDerivative := clampMax D;
       TR.ControlSignal := y;
       TR.UnsaturatedControlSignal := u |}
  /\ TR.Config (TR.Update c input) = cfg.
Proof. split; reflexivity. Qed.

(** After an [Update], the stored control signal is the clamp of the
    stored unsaturated signal. *)
Lemma AW_Update_signal (c : AW.AntiWindupController) input :
  let s := AW.State (AW.Update c input) in
  AW.ControlSignal s
  = clamp (AW.UnsaturatedControlSignal s)
          (AW.MinOutput (AW.Config c)) (AW.MaxOutput (AW.Config c)).
Proof. reflexivity. Qed.

Lemma TR_Update_signal (c : TR.TrackingController) input :
  let s := TR.State (TR.Update c input) in
  TR.ControlSignal s
  = clamp (TR.UnsaturatedControlSignal s)
          (TR.MinOutput (TR.Config c)) (TR.MaxOutput (TR.Config c)).
Proof. reflexivity. Qed.

(** What a clamp into a non-empty interval returns. *)
Lemma clamp_spec (lo hi x : float32) :
  leb lo hi = true ->
  (is_nan x = true -> is_nan (clamp x lo hi) = true)
  /\ (is_nan x = false -> within lo hi (clamp x lo hi))
  /\ (within lo hi x ->
      eqb (clamp x lo hi) x = true
      /\ (is_zero x = false -> clamp x lo hi = x)).
Proof.
  intros Hlh. unfold clamp, within. split; [|split].
  - intros H. rewrite clamp_is_nan, H. apply orb_true_r.
  - intros H. now apply clamp_bounds.
  - intros [H1 H2]. now apply clamp_inside.
Qed.

Lemma five_fields_not_inf (lo hi e g I D u : float32) :
  is_inf lo = false -> is_inf hi = false ->
  is_inf (clampMax e) = false /\ is_inf (clampMax g) = false
  /\ is_inf (clampMax I) = false /\ is_inf (clampMax D) = false
  /\ is_inf (clamp u lo hi) = false.
Proof.
  intros Hlo Hhi. repeat split; try apply clampMax_not_inf.
  now apply clamp_not_inf.
Qed.

End UpdateLaws.

(** * The properties of the controllers *)

(** ** State fields and infinities *)

(** C1, counterexample.  With every configuration value, every state field
    and every input finite, one [Update] of the anti-windup controller, and
    of the tracking controller, stores [+Inf] in [UnsaturatedControlSignal]:
    the proportional term [MaxFloat32 * 2] overflows and that field is not
    clamped. *)
Lemma unsaturated_signal_can_be_infinite :
  (AW_finiteConfig Examples.awConfig = true
   /\ AW_finiteState AW.zeroState = true
   /\ AW_finiteInput Examples.awStepMax = true
   /\ AW.UnsaturatedControlSignal
        (AW.State (AW.Update Examples.aw Examples.awStepMax)) = pinf)
  /\ (TR_finiteConfig Examples.trConfig = true
      /\ TR_finiteState TR.zeroState = true
      /\ TR_finiteInput Examples.trStepMax = true
      /\ TR.UnsaturatedControlSignal
           (TR.State (TR.Update Examples.tr Examples.trStepMax)) = pinf).
Proof. vm_compute. repeat split. Qed.

(** C1, amended.  After any non-empty sequence of [Update] calls of the
    anti-windup controller, and of the tracking controller, with output
    bounds that are not infinite, the fields [ControlError],
    [ControlErrorIntegrand], [ControlErrorIntegral], [ControlErrorDerivative]
    and [ControlSignal] are never [+Inf] or [-Inf], whatever the inputs, the
    gains and the prior state. *)
Theorem clamped_fields_never_infinite :
  (forall (c : AW.AntiWindupController) inputs,
      inputs <> [] ->
      is_inf (AW.MinOutput (AW.Config c)) = false ->
      is_inf (AW.MaxOutput (AW.Config c)) = false ->
      let s := AW.State (AW.Updates c inputs) in
      is_inf (AW.ControlError s) = false
      /\ is_inf (AW.ControlErrorIntegrand s) = false
      /\ is_inf (AW.ControlErrorIntegral s) = false
      /\ is_inf (AW.ControlErrorDerivative s) = false
      /\ is_inf (AW.ControlSignal s) = false)
  /\ (forall (c : TR.TrackingController) inputs,
         inputs <> [] ->
         is_inf (TR.MinOutput (TR.Config c)) = false ->
         is_inf (TR.MaxOutput (TR.Config c)) = false ->
         let s := TR.State (TR.Updates c inputs) in
         is_inf (TR.ControlError s) = false
         /\ is_inf (TR.ControlErrorIntegrand s) = false
         /\ is_inf (TR.ControlErrorIntegral s) = false
         /\ is_inf (TR.ControlErrorDerivative s) = false
         /\ is_inf (TR.ControlSignal s) = false).
Proof.
  split.
  - intros c inputs Hne Hlo Hhi s. subst s.
    destruct (AW_Updates_last c inputs Hne) as (c' & i & -> & Hc).
    rewrite <- Hc in Hlo, Hhi.
    rewrite (proj1 (AW_Update_State c' i)). cbn [AW.ControlError
      AW.ControlErrorIntegrand AW.ControlErrorIntegral
      AW.ControlErrorDerivative AW.ControlSignal].
    now apply five_fields_not_inf.
  - intros c inputs Hne Hlo Hhi s. subst s.
    destruct (TR_Updates_last c inputs Hne) as (c' & i & -> & Hc).
    rewrite <- Hc in Hlo, Hhi.
    rewrite (proj1 (TR_Update_State c' i)). cbn [TR.ControlError
      TR.ControlErrorIntegrand TR.ControlErrorIntegral
      TR.ControlErrorDerivative TR.ControlSignal].
    now apply five_fields_not_inf.
Qed.

Lemma clamped_fields_never_infinite_witness :
  [Examples.awStepMax] <> []
  /\ is_inf (AW.MinOutput (AW.Config Examples.aw)) = false
  /\ is_inf (AW.MaxOutput (AW.Config Examples.aw)) = false
  /\ (let s := AW.State (AW.Updates Examples.aw [Examples.awStepMax]) in
      is_inf (AW.ControlError s) = false
      /\ is_inf (AW.ControlErrorIntegrand s) = false
      /\ is_inf (AW.ControlErrorIntegral s) = false
      /\ is_inf (AW.ControlErrorDerivative s) = false
      /\ is_inf (AW.ControlSignal s) = false).
Proof.
  split; [discriminate|]. split; [reflexivity|]. split; [reflexivity|].
  apply (proj1 clamped_fields_never_infinite Examples.aw [Examples.awStepMax]);
    [discriminate | reflexivity | reflexivity].
Defined.

(** ** Output saturation *)

(** C2, counterexample.  (1) With [MinOutput <= MaxOutput], a finite
    configuration, the zero state and finite inputs, one [Update] stores NaN
    in [ControlSignal]: the error [MaxFloat32 - (-MaxFloat32)] overflows to
    [+Inf] and [0 * Inf] is NaN.  (2) With bounds [[+0, 1]] and an
    unsaturated signal [-0], which lies within the bounds, [ControlSignal] is
    [+0]: equal to it as a number, not bit for bit. *)
Lemma control_signal_saturation_counterexample :
  (let c := {| AW.Config := Examples.awConfigPI; AW.State := AW.zeroState |} in
   let s := AW.State (AW.Update c Examples.awOpposite) in
   leb (AW.MinOutput (AW.Config c)) (AW.MaxOutput (AW.Config c)) = true
   /\ AW_finiteConfig (AW.Config c) = true
   /\ AW_finiteInput Examples.awOpposite = true
   /\ AW.ControlSignal s = nan
   /\ leb (AW.MinOutput (AW.Config c)) (AW.ControlSignal s) = false)
  /\ (let c := {| AW.Config := Examples.awConfigZero;
                  AW.State := Examples.awStateNegZero |} in
      let s := AW.State (AW.Update c Examples.awInputNegZero) in
      leb (AW.MinOutput (AW.Config c)) (AW.UnsaturatedControlSignal s) = true
      /\ leb (AW.UnsaturatedControlSignal s) (AW.MaxOutput (AW.Config c)) = true
      /\ AW.UnsaturatedControlSignal s = S754_zero true
      /\ AW.ControlSignal s = S754_zero false
      /\ AW.ControlSignal s <> AW.UnsaturatedControlSignal s).
Proof. vm_compute. repeat split; discriminate. Qed.

(** C2, amended.  After any non-empty sequence of [Update] calls of the
    anti-windup controller, and of the tracking controller, with
    [MinOutput <= MaxOutput]: if the computed [UnsaturatedControlSignal] is
    not NaN, [ControlSignal] lies within [[MinOutput, MaxOutput]] (if it is
    NaN, so is [ControlSignal]); and if [UnsaturatedControlSignal] lies within
    the bounds, [ControlSignal] equals it as a float32 ([==]), and is the
    very same float whenever it is not a zero. *)
Theorem control_signal_saturation :
  (forall (c : AW.AntiWindupController) inputs,
      inputs <> [] ->
      leb (AW.MinOutput (AW.Config c)) (AW.MaxOutput (AW.Config c)) = true ->
      let s := AW.State (AW.Updates c inputs) in
      let lo := AW.MinOutput (AW.Config c) in
      let hi := AW.MaxOutput (AW.Config c) in
      (is_nan (AW.UnsaturatedControlSignal s) = true ->
       is_nan (AW.ControlSignal s) = true)
      /\ (is_nan (AW.UnsaturatedControlSignal s) = false ->
          within lo hi (AW.ControlSignal s))
      /\ (within lo hi (AW.UnsaturatedControlSignal s) ->
          eqb (AW.ControlSignal s) (AW.UnsaturatedControlSignal s) = true
          /\ (is_zero (AW.UnsaturatedControlSignal s) = false ->
              AW.ControlSignal s = AW.UnsaturatedControlSignal s)))
  /\ (forall (c : TR.TrackingController) inputs,
         inputs <> [] ->
         leb (TR.MinOutput (TR.Config c)) (TR.MaxOutput (TR.Config c)) = true ->
         let s := TR.State (TR.Updates c inputs) in
         let lo := TR.MinOutput (TR.Config c) in
         let hi := TR.MaxOutput (TR.Config c) in
         (is_nan (TR.UnsaturatedControlSignal s) = true ->
          is_nan (TR.ControlSignal s) = true)
         /\ (is_nan (TR.UnsaturatedControlSignal s) = false ->
             within lo hi (TR.ControlSignal s))
         /\ (within lo hi (TR.UnsaturatedControlSignal s) ->
             eqb (TR.ControlSignal s) (TR.UnsaturatedControlSignal s) = true
             /\ (is_zero (TR.UnsaturatedControlSignal s) = false ->
                 TR.ControlSignal s = TR.UnsaturatedControlSignal s))).
Proof.
  split.
  - intros c inputs Hne Hle s lo hi. subst s lo hi.
    destruct (AW_Updates_last c inputs Hne) as (c' & i & -> & Hc).
    rewrite <- Hc in *. rewrite AW_Update_signal.
    now apply clamp_spec.
  - intros c inputs Hne Hle s lo hi. subst s lo hi.
    destruct (TR_Updates_last c inputs Hne) as (c' & i & -> & Hc).
    rewrite <- Hc in *. rewrite TR_Update_signal.
    now apply clamp_spec.
Qed.

Lemma control_signal_saturation_witness :
  [Examples.awStep 10 0; Examples.awStep 10 1] <> []
  /\ leb (AW.MinOutput (AW.Config Examples.aw))
         (AW.MaxOutput (AW.Config Examples.aw)) = true
  /\ within (of_Z (-100)) (of_Z 100)
       (AW.ControlSignal
          (AW.State (AW.Updates Examples.aw
                       [Examples.awStep 10 0; Examples.awStep 10 1]))).
Proof.
  split; [discriminate|]. split; [reflexivity|].
  apply (proj1 control_signal_saturation Examples.aw
               [Examples.awStep 10 0; Examples.awStep 10 1]);
    [discriminate | reflexivity | reflexivity].
Defined.

(** ** The clamped integral of the PI controller *)

(** C3, counterexample.  (1) A NaN reference makes the integral NaN, which
    lies in no interval.  (2) With [MinIntegralError = 1] above
    [MaxIntegralError = -1] the integral is 1 after an [Update], above the
    upper bound. *)
Lemma pi_integral_bounds_counterexample :
  (let c := Examples.pi (-1) 1 in
   let I := PI.ControlErrorIntegral (PI.State (PI.Update c Examples.piStepNaN)) in
   I = nan
   /\ leb (PI.MinIntegralError (PI.Config c)) I = false
   /\ leb I (PI.MaxIntegralError (PI.Config c)) = false)
  /\ (let c := Examples.pi 1 (-1) in
      let I := PI.ControlErrorIntegral
                 (PI.State (PI.Update c (Examples.piStep 0 0))) in
      I = of_Z 1 /\ leb I (PI.MaxIntegralError (PI.Config c)) = false).
Proof. vm_compute. repeat split. Qed.

(** C3, amended.  For the PI controller with
    [MinIntegralError <= MaxIntegralError], an [Update] stores the clamp of
    [integral + error * dt] (accumulate, then clamp), which is NaN exactly
    when that sum is NaN; and after any non-empty sequence of [Update] calls
    [ControlErrorIntegral] is NaN or lies within
    [[MinIntegralError, MaxIntegralError]]. *)
Theorem pi_integral_clamped :
  forall (c : PI.PIController),
    leb (PI.MinIntegralError (PI.Config c))
        (PI.MaxIntegralError (PI.Config c)) = true ->
    let lo := PI.MinIntegralError (PI.Config c) in
    let hi := PI.MaxIntegralError (PI.Config c) in
    (forall input,
        let acc := (PI.ControlErrorIntegral (PI.State c)
                    + (PI.ReferenceSignal input - PI.ActualSignal input)
                      * seconds (PI.SamplingInterval input))%f32 in
        let I := PI.ControlErrorIntegral (PI.State (PI.Update c input)) in
        I = clamp acc lo hi /\ is_nan I = is_nan acc)
    /\ (forall inputs,
           inputs <> [] ->
           let I := PI.ControlErrorIntegral (PI.State (PI.Updates c inputs)) in
           is_nan I = true \/ within lo hi I).
Proof.
  intros c Hle lo hi. subst lo hi. split.
  - intros input acc I. subst acc I. split; [reflexivity|].
    cbn [PI.Update PI.State PI.ControlErrorIntegral].
    rewrite clamp_is_nan.
    destruct (leb_not_nan _ _ Hle) as [-> ->]. reflexivity.
  - intros inputs Hne I. subst I.
    destruct (PI_Updates_last c inputs Hne) as (c' & i & -> & Hc).
    rewrite <- Hc in *.
    cbn [PI.Update PI.State PI.ControlErrorIntegral].
    match goal with
    | |- is_nan (max _ (min _ ?a)) = true \/ _ =>
        destruct (is_nan a) eqn:E
    end.
    + left. rewrite clamp_is_nan, E. apply orb_true_r.
    + right. now apply clamp_bounds.
Qed.

Lemma pi_integral_clamped_witness :
  leb (PI.MinIntegralError (PI.Config (Examples.pi (-1) 1)))
      (PI.MaxIntegralError (PI.Config (Examples.pi (-1) 1))) = true
  /\ (let I := PI.ControlErrorIntegral
                 (PI.State (PI.Updates (Examples.pi (-1) 1)
                              [Examples.piStep 5 0; Examples.piStep 5 1])) in
      is_nan I = true \/ within (of_Z (-1)) (of_Z 1) I).
Proof.
  split; [reflexivity|].
  apply (proj2 (pi_integral_clamped (Examples.pi (-1) 1) eq_refl)
               [Examples.piStep 5 0; Examples.piStep 5 1]).
  discriminate.
Defined.

(** ** The integral and derivative laws *)

(** C4, counterexample.  The stored integral and derivative are not always
    the values of the two formulas.  (1) After the step to [MaxFloat32] the
    stored integrand is [-MaxFloat32]; at the next [Update], two seconds
    later, [integrand_prev * dt + integral_prev] is [-Inf] and the integral
    stored is [-MaxFloat32].  (2) With reference [MaxFloat32] and
    measurement [-MaxFloat32] the error is [+Inf], the filter formula gives
    [+Inf] and the derivative stored is [MaxFloat32]. *)
Lemma stored_integral_derivative_counterexample :
  (let c := AW.Update Examples.aw Examples.awStepMax in
   let st := AW.State c in
   let I := (AW.ControlErrorIntegrand st * seconds (2 * Second)%Z
             + AW.ControlErrorIntegral st)%f32 in
   let s' := AW.State (AW.Update c Examples.awStepLong) in
   AW.ControlErrorIntegrand st = (- MaxFloat32)%f32
   /\ I = ninf
   /\ AW.ControlErrorIntegral s' = (- MaxFloat32)%f32
   /\ AW.ControlErrorIntegral s' <> I)
  /\ (let c := {| AW.Config := Examples.awConfigPI;
                  AW.State := AW.zeroState |} in
      let st := AW.State c in
      let dt := seconds (AW.SamplingInterval Examples.awOpposite) in
      let tau := seconds (AW.LowPassTimeConstant (AW.Config c)) in
      let e := (AW.ReferenceSignal Examples.awOpposite
                - AW.ActualSignal Examples.awOpposite)%f32 in
      let D := (((one / tau) * (e - AW.ControlError st)
                 + AW.ControlErrorDerivative st) / (dt / tau + one))%f32 in
      let s' := AW.State (AW.Update c Examples.awOpposite) in
      D = pinf
      /\ AW.ControlErrorDerivative s' = MaxFloat32
      /\ AW.ControlErrorDerivative s' <> D).
Proof. vm_compute. repeat split; discriminate. Qed.

(** C4, amended.  In one [Update] of the anti-windup controller, and
    identically of the tracking controller, the integral computed is
    [integrand_prev * dt + integral_prev] (the integrand of the previous
    step, not the current error) and the derivative computed is
    [((1/tau) * (error - prevError) + prevDerivative) / (dt/tau + 1)], with
    that operand order; these values enter the unsaturated control signal
    as they are, and the state stores their clamp to
    [[-MaxFloat32, MaxFloat32]]: the previous integrand and integral being
    floats of the format, the stored integral and derivative are the computed
    values, except that [+Inf] is stored as [MaxFloat32] and [-Inf] as
    [-MaxFloat32]. *)
Theorem integral_and_derivative_laws :
  (forall (c : AW.AntiWindupController) input,
      valid (AW.ControlErrorIntegrand (AW.State c)) = true ->
      valid (AW.ControlErrorIntegral (AW.State c)) = true ->
      let cfg := AW.Config c in
      let st := AW.State c in
      let dt := seconds (AW.SamplingInterval input) in
      let tau := seconds (AW.LowPassTimeConstant cfg) in
      let e := (AW.ReferenceSignal input - AW.ActualSignal input)%f32 in
      let I := (AW.ControlErrorIntegrand st * dt
                + AW.ControlErrorIntegral st)%f32 in
      let D := (((one / tau) * (e - AW.ControlError st)
                 + AW.ControlErrorDerivative st) / (dt / tau + one))%f32 in
      let s' := AW.State (AW.Update c input) in
      AW.ControlErrorIntegral s' = clampMax I
      /\ AW.ControlErrorDerivative s' = clampMax D
      /\ AW.ControlErrorIntegral s' = replaceInf I
      /\ AW.ControlErrorDerivative s' = replaceInf D
      /\ AW.UnsaturatedControlSignal s'
         = (e * AW.ProportionalGain cfg + AW.IntegralGain cfg * I
            + AW.DerivativeGain cfg * D + AW.FeedForwardSignal input)%f32)
  /\ (forall (c : TR.TrackingController) input,
         valid (TR.ControlErrorIntegrand (TR.State c)) = true ->
         valid (TR.ControlErrorIntegral (TR.State c)) = true ->
         let cfg := TR.Config c in
         let st := TR.State c in
         let dt := seconds (TR.SamplingInterval input) in
         let tau := seconds (TR.LowPassTimeConstant cfg) in
         let e := (TR.ReferenceSignal input - TR.ActualSignal input)%f32 in
         let I := (TR.ControlErrorIntegrand st * dt
                   + TR.ControlErrorIntegral st)%f32 in
         let D := (((one / tau) * (e - TR.ControlError st)
                    + TR.ControlErrorDerivative st) / (dt / tau + one))%f32 in
         let s' := TR.State (TR.Update c input) in
         TR.ControlErrorIntegral s' = clampMax I
         /\ TR.ControlErrorDerivative s' = clampMax D
         /\ TR.ControlErrorIntegral s' = replaceInf I
         /\ TR.ControlErrorDerivative s' = replaceInf D
         /\ TR.UnsaturatedControlSignal s'
            = (e * TR.ProportionalGain cfg + TR.IntegralGain cfg * I
               + TR.DerivativeGain cfg * D + TR.FeedForwardSignal input)%f32).
Proof.
  split.
  - intros c input Hg HI cfg st dt tau e I D s'.
    split; [reflexivity|]. split; [reflexivity|].
    split; [|split; [|reflexivity]].
    + change (AW.ControlErrorIntegral s') with (clampMax I).
      apply clampMax_valid. apply valid_add; [|assumption].
      apply valid_mul; [assumption | apply valid_seconds].
    + change (AW.ControlErrorDerivative s') with (clampMax D).
      apply clampMax_valid. apply valid_div.
  - intros c input Hg HI cfg st dt tau e I D s'.
    split; [reflexivity|]. split; [reflexivity|].
    split; [|split; [|reflexivity]].
    + change (TR.ControlErrorIntegral s') with (clampMax I).
      apply clampMax_valid. apply valid_add; [|assumption].
      apply valid_mul; [assumption | apply valid_seconds].
    + change (TR.ControlErrorDerivative s') with (clampMax D).
      apply clampMax_valid. apply valid_div.
Qed.

Lemma integral_and_derivative_laws_witness :
  (let c := Examples.awCharged in
   let s' := AW.State (AW.Update c (Examples.awStep 10 0)) in
   let dt := seconds (100 * Millisecond) in
   valid (AW.ControlErrorIntegrand (AW.State c)) = true
   /\ valid (AW.ControlErrorIntegral (AW.State c)) = true
   /\ AW.ControlErrorIntegral s' = replaceInf (of_Z 3 * dt + of_Z 8)%f32
   /\ AW.ControlErrorDerivative s'
      = replaceInf (((one / seconds Second) * ((of_Z 10 - of_Z 0) - of_Z 1)
                     + of_Z 2) / (dt / seconds Second + one))%f32)
  /\ (let c := AW.Update Examples.aw Examples.awStepMax in
      valid (AW.ControlErrorIntegrand (AW.State c)) = true
      /\ valid (AW.ControlErrorIntegral (AW.State c)) = true
      /\ AW.ControlErrorIntegral (AW.State (AW.Update c Examples.awStepLong))
         = replaceInf ninf).
Proof.
  split.
  - destruct (proj1 integral_and_derivative_laws Examples.awCharged
                    (Examples.awStep 10 0) eq_refl eq_refl)
      as (_ & _ & HI & HD & _).
    split; [reflexivity|]. split; [reflexivity|]. split; [exact HI | exact HD].
  - destruct (proj1 integral_and_derivative_laws
                    (AW.Update Examples.aw Examples.awStepMax)
                    Examples.awStepLong eq_refl eq_refl)
      as (_ & _ & HI & _).
    split; [reflexivity|]. split; [reflexivity|].
    rewrite HI. reflexivity.
Defined.

(** ** The tracking controller against the anti-windup controller *)

(** C5.  On the same configuration, state and input, the tracking
    controller's [Update] computes the same error, integral, derivative,
    unsaturated signal and saturated signal as the anti-windup controller's;
    it differs in the integrand only, which it computes from the applied
    control signal where the anti-windup controller uses its own saturated
    signal. *)
Theorem tracking_update_matches_antiwindup :
  forall (c : TR.TrackingController) (input : TR.TrackingControllerInput),
    let t := TR.State (TR.Update c input) in
    let a := AW.State (AW.Update (TR.toAntiWindup c)
                                 (TR.toAntiWindupInput input)) in
    let e := (TR.ReferenceSignal input - TR.ActualSignal input)%f32 in
    let k := TR.AntiWindUpGain (TR.Config c) in
    TR.ControlError t = AW.ControlError a
    /\ TR.ControlErrorIntegral t = AW.ControlErrorIntegral a
    /\ TR.ControlErrorDerivative t = AW.ControlErrorDerivative a
    /\ TR.UnsaturatedControlSignal t = AW.UnsaturatedControlSignal a
    /\ TR.ControlSignal t = AW.ControlSignal a
    /\ TR.ControlErrorIntegrand t
       = clampMax (e + k * (TR.AppliedControlSignal input
                            - TR.UnsaturatedControlSignal t))%f32
    /\ AW.ControlErrorIntegrand a
       = clampMax (e + k * (AW.ControlSignal a
                            - AW.UnsaturatedControlSignal a))%f32
    /\ TR.toAntiWindupConfig (TR.Config (TR.Update c input))
       = AW.Config (AW.Update (TR.toAntiWindup c) (TR.toAntiWindupInput input)).
Proof. intros c input. repeat split. Qed.

(** ** Discharging the integral *)

(** C6, counterexample.  With [IntegralDischargeTimeConstant = 1.125] and
    [dt = 1125 ms], so that [dt >= T] (they are equal), [float32(dt)] rounds
    1125000000 down to 1124999936 and [seconds(dt)] is [9437183 * 2^-23],
    below [T]: the factor is [2^-23] and the finite integral 8 becomes
    [2^-20], not 0. *)
Lemma discharge_boundary_counterexample :
  let c := Examples.awCharged1125 in
  let T := AW.IntegralDischargeTimeConstant (AW.Config c) in
  let dt := 1125 * Millisecond in
  duration_geb dt T = true
  /\ valid T = true /\ is_finite T = true /\ ltb zero T = true
  /\ AW.ControlErrorIntegral (AW.State c) = of_Z 8
  /\ seconds dt = S754_finite false 9437183 (-23)
  /\ leb T (seconds dt) = false
  /\ AW.ControlErrorIntegral (AW.State (AW.DischargeIntegral c dt))
     = S754_finite false 8388608 (-43)
  /\ is_zero (AW.ControlErrorIntegral (AW.State (AW.DischargeIntegral c dt)))
     = false.
Proof. vm_compute. repeat split. Qed.

(** C6, amended.  For the anti-windup controller, and for the tracking
    controller, [DischargeIntegral(dt)] sets [ControlErrorIntegrand] to 0,
    multiplies [ControlErrorIntegral] by
    [clamp(1 - dt/IntegralDischargeTimeConstant, 0, 1)] and changes no other
    field, nor the configuration.  With a finite positive time constant [T]
    and a finite integral, the integral becomes a zero when the float32
    [seconds(dt)] is at least [T] (rounding can bring [seconds(dt)] below
    [T] for a [dt] equal to [T] or just above it); with a positive [T],
    [dt = 0] leaves the integral as it is; and when [1 - seconds(dt)/T] lies
    strictly between 0 and 1 the integral is multiplied by it. *)
Theorem discharge_integral_spec :
  (forall (c : AW.AntiWindupController) (dt : Duration),
      let T := AW.IntegralDischargeTimeConstant (AW.Config c) in
      let st := AW.State c in
      let I := AW.ControlErrorIntegral st in
      let f := (one - seconds dt / T)%f32 in
      let s' := AW.State (AW.DischargeIntegral c dt) in
      AW.ControlErrorIntegrand s' = zero
      /\ AW.ControlErrorIntegral s' = (clamp f zero one * I)%f32
      /\ AW.ControlError s' = AW.ControlError st
      /\ AW.ControlErrorDerivative s' = AW.ControlErrorDerivative st
      /\ AW.ControlSignal s' = AW.ControlSignal st
      /\ AW.UnsaturatedControlSignal s' = AW.UnsaturatedControlSignal st
      /\ AW.Config (AW.DischargeIntegral c dt) = AW.Config c
      /\ (valid T = true -> is_finite T = true -> ltb zero T = true ->
          is_finite I = true -> leb T (seconds dt) = true ->
          is_zero (AW.ControlErrorIntegral s') = true)
      /\ (ltb zero T = true -> valid I = true ->
          AW.ControlErrorIntegral (AW.State (AW.DischargeIntegral c 0)) = I)
      /\ (ltb zero f = true -> ltb f one = true ->
          AW.ControlErrorIntegral s' = (f * I)%f32))
  /\ (forall (c : TR.TrackingController) (dt : Duration),
         let T := TR.IntegralDischargeTimeConstant (TR.Config c) in
         let st := TR.State c in
         let I := TR.ControlErrorIntegral st in
         let f := (one - seconds dt / T)%f32 in
         let s' := TR.State (TR.DischargeIntegral c dt) in
         TR.ControlErrorIntegrand s' = zero
         /\ TR.ControlErrorIntegral s' = (clamp f zero one * I)%f32
         /\ TR.ControlError s' = TR.ControlError st
         /\ TR.ControlErrorDerivative s' = TR.ControlErrorDerivative st
         /\ TR.ControlSignal s' = TR.ControlSignal st
         /\ TR.UnsaturatedControlSignal s' = TR.UnsaturatedControlSignal st
         /\ TR.Config (TR.DischargeIntegral c dt) = TR.Config c
         /\ (valid T = true -> is_finite T = true -> ltb zero T = true ->
             is_finite I = true -> leb T (seconds dt) = true ->
             is_zero (TR.ControlErrorIntegral s') = true)
         /\ (ltb zero T = true -> valid I = true ->
             TR.ControlErrorIntegral (TR.State (TR.DischargeIntegral c 0)) = I)
         /\ (ltb zero f = true -> ltb f one = true ->
             TR.ControlErrorIntegral s' = (f * I)%f32)).
Proof.
  split.
  - intros c dt T st I f s'.
    assert (HI : AW.ControlErrorIntegral s'
                 = (discharge_factor (seconds dt) T * I)%f32) by reflexivity.
    split; [reflexivity|]. split; [now rewrite HI, discharge_factor_clamp|].
    do 5 (split; [reflexivity|]). split; [|split].
    + intros HvT HfT Hpos HfI Hle. rewrite HI.
      rewrite discharge_factor_zero; auto using valid_seconds, mul_zero_finite.
    + intros Hpos HvI.
      change (AW.ControlErrorIntegral (AW.State (AW.DischargeIntegral c 0)))
        with (discharge_factor (seconds 0) T * I)%f32.
      rewrite discharge_factor_one by assumption. now apply mul_one_l.
    + intros H0 H1. rewrite HI. now rewrite discharge_factor_between.
  - intros c dt T st I f s'.
    assert (HI : TR.ControlErrorIntegral s'
                 = (discharge_factor (seconds dt) T * I)%f32) by reflexivity.
    split; [reflexivity|]. split; [now rewrite HI, discharge_factor_clamp|].
    do 5 (split; [reflexivity|]). split; [|split].
    + intros HvT HfT Hpos HfI Hle. rewrite HI.
      rewrite discharge_factor_zero; auto using valid_seconds, mul_zero_finite.
    + intros Hpos HvI.
      change (TR.ControlErrorIntegral (TR.State (TR.DischargeIntegral c 0)))
        with (discharge_factor (seconds 0) T * I)%f32.
      rewrite discharge_factor_one by assumption. now apply mul_one_l.
    + intros H0 H1. rewrite HI. now rewrite discharge_factor_between.
Qed.

Lemma discharge_integral_spec_witness :
  is_zero (AW.ControlErrorIntegral
             (AW.State (AW.DischargeIntegral Examples.awCharged (2 * Second))))
  = true
  /\ AW.ControlErrorIntegral
       (AW.State (AW.DischargeIntegral Examples.awCharged 0)) = of_Z 8
  /\ AW.ControlErrorIntegral
       (AW.State (AW.DischargeIntegral Examples.awCharged (500 * Millisecond)))
     = ((one - seconds (500 * Millisecond)%Z / of_Z 1) * of_Z 8)%f32.
Proof.
  pose proof (proj1 discharge_integral_spec Examples.awCharged (2 * Second)) as H2.
  pose proof (proj1 discharge_integral_spec Examples.awCharged
                    (500 * Millisecond)) as H5.
  cbv zeta in H2, H5.
  destruct H2 as (_ & _ & _ & _ & _ & _ & _ & Hz & H0 & _).
  destruct H5 as (_ & _ & _ & _ & _ & _ & _ & _ & _ & Hb).
  split; [apply Hz; reflexivity|].
  split; [apply H0; reflexivity | apply Hb; reflexivity].
Defined.

(** ** The documented example of the basic controller *)

(** C7.  From the all-zero state, with gains 2, 1 and 1, one [Update] of the
    basic controller with reference 10, measurement 0 and a sampling interval
    of 100 ms (so that [dt] is the float32 quotient of 100000000 by 1e9)
    stores error 10, integral 1, derivative 100 and control signal 121. *)
Theorem basic_controller_example :
  let c := {| PID.Config := {| PID.ProportionalGain := of_Z 2;
                               PID.IntegralGain := of_Z 1;
                               PID.DerivativeGain := of_Z 1 |};
              PID.State := PID.zeroState |} in
  let input := {| PID.ReferenceSignal := of_Z 10;
                  PID.ActualSignal := of_Z 0;
                  PID.SamplingInterval := 100 * Millisecond |} in
  seconds (PID.SamplingInterval input) = (of_Z 100000000 / of_Z 1000000000)%f32
  /\ PID.State (PID.Update c input)
     = {| PID.ControlError := of_Z 10;
          PID.ControlErrorIntegral := of_Z 1;
          PID.ControlErrorDerivative := of_Z 100;
          PID.ControlSignal := of_Z 121 |}.
Proof. split; vm_compute; reflexivity. Qed.

(** ** NaN *)

(** C8.  A NaN entering a clamp, as the clamped value or as a bound, is its
    result, for the state clamps, the output saturation and the integral
    clamp alike; and a NaN reference or measurement reaches the state of
    every controller: all four fields of the basic controller, both fields
    of the PI controller, and for the anti-windup and tracking controllers
    the error, integrand, derivative, unsaturated and saturated signal at
    once and the integral at the next [Update]. *)
Theorem nan_propagates :
  (forall lo hi, clamp nan lo hi = nan)
  /\ (forall x lo hi,
         is_nan (clamp x lo hi) = is_nan lo || is_nan hi || is_nan x)
  /\ (forall (c : PID.Controller) input,
         is_nan (PID.ReferenceSignal input)
         || is_nan (PID.ActualSignal input) = true ->
         PID.State (PID.Update c input)
         = {| PID.ControlError := nan; PID.ControlErrorIntegral := nan;
              PID.ControlErrorDerivative := nan; PID.ControlSignal := nan |})
  /\ (forall (c : PI.PIController) input,
         is_nan (PI.ReferenceSignal input)
         || is_nan (PI.ActualSignal input) = true ->
         PI.State (PI.Update c input)
         = {| PI.ControlErrorIntegral := nan; PI.ControlSignal := nan |})
  /\ (forall (c : AW.AntiWindupController) input,
         is_nan (AW.ReferenceSignal input)
         || is_nan (AW.ActualSignal input) = true ->
         let s := AW.State (AW.Update c input) in
         AW.ControlError s = nan /\ AW.ControlErrorIntegrand s = nan
         /\ AW.ControlErrorDerivative s = nan /\ AW.ControlSignal s = nan
         /\ AW.UnsaturatedControlSignal s = nan
         /\ forall input',
             AW.ControlErrorIntegral
               (AW.State (AW.Update (AW.Update c input) input')) = nan)
  /\ (forall (c : TR.TrackingController) input,
         is_nan (TR.ReferenceSignal input)
         || is_nan (TR.ActualSignal input) = true ->
         let s := TR.State (TR.Update c input) in
         TR.ControlError s = nan /\ TR.ControlErrorIntegrand s = nan
         /\ TR.ControlErrorDerivative s = nan /\ TR.ControlSignal s = nan
         /\ TR.UnsaturatedControlSignal s = nan
         /\ forall input',
             TR.ControlErrorIntegral
               (TR.State (TR.Update (TR.Update c input) input')) = nan).
Proof.
  split; [intros; apply clamp_nan|].
  split; [intros; apply clamp_is_nan|].
  split; [|split; [|split]].
  - intros c input H. apply sub_is_nan in H.
    unfold PID.Update. cbn [PID.State]. rewrite H.
    autorewrite with nan. reflexivity.
  - intros c input H. apply sub_is_nan in H.
    unfold PI.Update. cbn [PI.State]. rewrite H.
    autorewrite with nan. reflexivity.
  - intros c input H s. apply sub_is_nan in H. subst s.
    unfold AW.Update.
    cbn [AW.State AW.ControlError AW.ControlErrorIntegrand
         AW.ControlErrorIntegral AW.ControlErrorDerivative AW.ControlSignal
         AW.UnsaturatedControlSignal AW.Config].
    rewrite H. autorewrite with nan. repeat split.
  - intros c input H s. apply sub_is_nan in H. subst s.
    unfold TR.Update.
    cbn [TR.State TR.ControlError TR.ControlErrorIntegrand
         TR.ControlErrorIntegral TR.ControlErrorDerivative TR.ControlSignal
         TR.UnsaturatedControlSignal TR.Config].
    rewrite H. autorewrite with nan. repeat split.
Qed.

Lemma nan_propagates_witness :
  is_nan (PI.ReferenceSignal Examples.piStepNaN)
  || is_nan (PI.ActualSignal Examples.piStepNaN) = true
  /\ PI.State (PI.Update (Examples.pi (-1) 1) Examples.piStepNaN)
     = {| PI.ControlErrorIntegral := nan; PI.ControlSignal := nan |}.
Proof.
  split; [reflexivity|].
  apply (proj1 (proj2 (proj2 (proj2 nan_propagates)))
               (Examples.pi (-1) 1) Examples.piStepNaN).
  reflexivity.
Defined.

(** ** Reset *)

(** C9.  For each of the four controllers and every prior state, [Reset]
    sets every state field to zero and keeps the configuration; resetting
    twice is resetting once. *)
Theorem reset_zeroes_state :
  (forall c : PID.Controller,
      PID.State (PID.Reset c)
      = {| PID.ControlError := zero; PID.ControlErrorIntegral := zero;
           PID.ControlErrorDerivative := zero; PID.ControlSignal := zero |}
      /\ PID.Config (PID.Reset c) = PID.Config c
      /\ PID.Reset (PID.Reset c) = PID.Reset c)
  /\ (forall c : PI.PIController,
         PI.State (PI.Reset c)
         = {| PI.ControlErrorIntegral := zero; PI.ControlSignal := zero |}
         /\ PI.Config (PI.Reset c) = PI.Config c
         /\ PI.Reset (PI.Reset c) = PI.Reset c)
  /\ (forall c : AW.AntiWindupController,
         AW.State (AW.Reset c)
         = {| AW.ControlError := zero; AW.ControlErrorIntegrand := zero;
              AW.ControlErrorIntegral := zero;
              AW.ControlErrorDerivative := zero; AW.ControlSignal := zero;
              AW.UnsaturatedControlSignal := zero |}
         /\ AW.Config (AW.Reset c) = AW.Config c
         /\ AW.Reset (AW.Reset c) = AW.Reset c)
  /\ (forall c : TR.TrackingController,
         TR.State (TR.Reset c)
         = {| TR.ControlError := zero; TR.ControlErrorIntegrand := zero;
              TR.ControlErrorIntegral := zero;
              TR.ControlErrorDerivative := zero; TR.ControlSignal := zero;
              TR.UnsaturatedControlSignal := zero |}
         /\ TR.Config (TR.Reset c) = TR.Config c
         /\ TR.Reset (TR.Reset c) = TR.Reset c).
Proof. repeat split. Qed.

(** ** The unused output bounds of the PI controller *)

Lemma PI_Update_bounds_unused (c1 c2 : PI.PIController) input :
  PI.State c1 = PI.State c2 ->
  PI.ProportionalGain (PI.Config c1) = PI.ProportionalGain (PI.Config c2) ->
  PI.IntegralGain (PI.Config c1) = PI.IntegralGain (PI.Config c2) ->
  PI.MaxIntegralError (PI.Config c1) = PI.MaxIntegralError (PI.Config c2) ->
  PI.MinIntegralError (PI.Config c1) = PI.MinIntegralError (PI.Config c2) ->
  PI.State (PI.Update c1 input) = PI.State (PI.Update c2 input).
Proof.
  intros Hs Hp Hi Hmax Hmin. unfold PI.Update. cbn [PI.State].
  now rewrite Hs, Hp, Hi, Hmax, Hmin.
Qed.

(** C10.  The PI controller applies no output saturation: two controllers
    whose configurations differ in [MinOutput] and [MaxOutput] only, in the
    same state, are in the same state after any sequence of [Update] calls on
    the same inputs, and after [Reset]. *)
Theorem pi_output_bounds_unused :
  forall (c1 c2 : PI.PIController),
    PI.State c1 = PI.State c2 ->
    PI.ProportionalGain (PI.Config c1) = PI.ProportionalGain (PI.Config c2) ->
    PI.IntegralGain (PI.Config c1) = PI.IntegralGain (PI.Config c2) ->
    PI.MaxIntegralError (PI.Config c1) = PI.MaxIntegralError (PI.Config c2) ->
    PI.MinIntegralError (PI.Config c1) = PI.MinIntegralError (PI.Config c2) ->
    (forall input,
        PI.State (PI.Update c1 input) = PI.State (PI.Update c2 input))
    /\ (forall inputs,
           PI.State (PI.Updates c1 inputs) = PI.State (PI.Updates c2 inputs))
    /\ PI.State (PI.Reset c1) = PI.State (PI.Reset c2).
Proof.
  intros c1 c2 Hs Hp Hi Hmax Hmin. split; [|split; [|reflexivity]].
  - intros input. now apply PI_Update_bounds_unused.
  - intros inputs. revert c1 c2 Hs Hp Hi Hmax Hmin.
    induction inputs as [|i l IH]; intros c1 c2 Hs Hp Hi Hmax Hmin.
    + exact Hs.
    + unfold PI.Updates. cbn [fold_left].
      apply IH; try assumption. now apply PI_Update_bounds_unused.
Qed.

Lemma pi_output_bounds_unused_witness :
  let cfg lo hi :=
    {| PI.ProportionalGain := of_Z 2; PI.IntegralGain := of_Z 3;
       PI.MaxIntegralError := of_Z 10; PI.MinIntegralError := of_Z (-10);
       PI.MaxOutput := hi; PI.MinOutput := lo |} in
  let c1 := {| PI.Config := cfg (of_Z (-1)) (of_Z 1); PI.State := PI.zeroState |} in
  let c2 := {| PI.Config := cfg pinf ninf; PI.State := PI.zeroState |} in
  PI.State (PI.Updates c1 [Examples.piStep 5 0; Examples.piStep 5 1])
  = PI.State (PI.Updates c2 [Examples.piStep 5 0; Examples.piStep 5 1]).
Proof.
  intros cfg c1 c2.
  apply (proj1 (proj2 (pi_output_bounds_unused c1 c2 eq_refl eq_refl eq_refl
                                               eq_refl eq_refl))).
Defined.

(** * Further properties of the package *)

(** ** More facts about the order and the arithmetic *)

Section MoreOrder.

Lemma ltb_leb_trans (x y z : float32) :
  ltb x y = true -> leb y z = true -> ltb x z = true.
Proof.
  unfold ltb, leb, SFltb, SFleb.
  destruct x as [[]|[]| |[] mx ex], y as [[]|[]| |[] my ey],
           z as [[]|[]| |[] mz ez];
    simpl; try discriminate; try reflexivity; intros H1 H2; compare_cases.
Qed.

Lemma leb_ltb_trans (x y z : float32) :
  leb x y = true -> ltb y z = true -> ltb x z = true.
Proof.
  unfold ltb, leb, SFltb, SFleb.
  destruct x as [[]|[]| |[] mx ex], y as [[]|[]| |[] my ey],
           z as [[]|[]| |[] mz ez];
    simpl; try discriminate; try reflexivity; intros H1 H2; compare_cases.
Qed.

Lemma leb_trans (x y z : float32) :
  leb x y = true -> leb y z = true -> leb x z = true.
Proof.
  unfold leb, SFleb.
  destruct x as [[]|[]| |[] mx ex], y as [[]|[]| |[] my ey],
           z as [[]|[]| |[] mz ez];
    simpl; try discriminate; try reflexivity; intros H1 H2; compare_cases.
Qed.

Lemma ltb_compare (x y : float32) :
  ltb x y = true <-> SFcompare x y = Some Lt.
Proof.
  unfold ltb, SFltb. destruct (SFcompare x y) as [[]|]; split; intros H;
    try discriminate; reflexivity.
Qed.

Lemma ltb_gt (x y : float32) :
  ltb x y = true -> SFcompare y x = Some Gt.
Proof.
  intros H. apply ltb_compare in H. now rewrite compare_antisym, H.
Qed.

(** Results that are an infinity or a NaN. *)
Lemma div_zero_not_finite (x : float32) : is_finite (x / zero)%f32 = false.
Proof. destruct x; reflexivity. Qed.

Lemma add_not_finite_r (x y : float32) :
  is_finite y = false -> is_finite (x + y)%f32 = false.
Proof.
  destruct x as [sx|sx| |sx mx ex], y as [sy|sy| |sy my ey]; intros H;
    try discriminate; try reflexivity; destruct sx, sy; reflexivity.
Qed.

Lemma add_not_finite_l (x y : float32) :
  is_finite x = false -> is_finite (x + y)%f32 = false.
Proof.
  destruct x as [sx|sx| |sx mx ex], y as [sy|sy| |sy my ey]; intros H;
    try discriminate; try reflexivity; destruct sx, sy; reflexivity.
Qed.

Lemma mul_not_finite_r (x y : float32) :
  is_finite y = false -> is_finite (x * y)%f32 = false.
Proof.
  destruct x as [sx|sx| |sx mx ex], y as [sy|sy| |sy my ey]; intros H;
    try discriminate; reflexivity.
Qed.

Lemma mul_not_finite_l (x y : float32) :
  is_finite x = false -> is_finite (x * y)%f32 = false.
Proof.
  destruct x as [sx|sx| |sx mx ex], y as [sy|sy| |sy my ey]; intros H;
    try discriminate; reflexivity.
Qed.

Lemma div_not_finite_nan (x y : float32) :
  is_finite x = false -> is_finite y = false -> (x / y)%f32 = nan.
Proof.
  destruct x as [sx|sx| |sx mx ex], y as [sy|sy| |sy my ey]; intros Hx Hy;
    try discriminate; reflexivity.
Qed.

(** The difference of two floats that compare equal is a zero. *)
Lemma sub_eqb_zero (x y : float32) :
  eqb x y = true -> is_finite y = true -> is_zero (x - y)%f32 = true.
Proof.
  unfold eqb, SFeqb. intros H Hf.
  destruct (SFcompare x y) as [[]|] eqn:E; try discriminate.
  destruct (compare_Eq_inv _ _ E) as [->|[Hx Hy]].
  - destruct y as [s|s| |s m e]; try discriminate.
    + destruct s; reflexivity.
    + unfold sub, SFsub. rewrite Z.sub_diag. reflexivity.
  - destruct x as [sx| | |], y as [sy| | |]; try discriminate.
    destruct sx, sy; reflexivity.
Qed.

Lemma mul_finite_zero (k z : float32) :
  is_finite k = true -> is_zero z = true -> is_zero (k * z)%f32 = true.
Proof.
  destruct k as [sk|sk| |sk mk ek], z as [sz|sz| |sz mz ez]; intros Hk Hz;
    try discriminate; reflexivity.
Qed.

Lemma add_zero_r (e z : float32) :
  is_zero z = true ->
  (e + z)%f32 = e \/ (is_zero e = true /\ is_zero (e + z)%f32 = true).
Proof.
  destruct z as [sz| | |]; intros Hz; try discriminate.
  destruct e as [se|se| |se me ee]; try (left; reflexivity).
  right. split; [reflexivity|]. destruct se, sz; reflexivity.
Qed.

Lemma clampMax_zero (x : float32) :
  is_zero x = true -> clampMax x = x.
Proof. destruct x as [[]| | |]; intros H; try discriminate; reflexivity. Qed.

End MoreOrder.

(** ** The conversion of durations *)

Section Seconds.

Lemma div_digits_upper (m1 m2 s : Z) :
  0 < m1 -> 0 < m2 -> 0 <= s ->
  Zdigits2 (m1 * 2 ^ s / m2) <= Z.max 0 (Zdigits2 m1 + s - Zdigits2 m2 + 1).
Proof.
  intros H1 H2 Hs.
  pose proof (Zdigits2_bounds m1 H1) as [_ B1].
  pose proof (Zdigits2_bounds m2 H2) as [B2 _].
  pose proof (Zdigits2_pos m1 H1). pose proof (Zdigits2_pos m2 H2).
  set (d1 := Zdigits2 m1) in *. set (d2 := Zdigits2 m2) in *.
  set (K := Z.max 0 (d1 + s - d2 + 1)).
  assert (Hq : 0 <= m1 * 2 ^ s / m2).
  { apply Z.div_pos; [|assumption].
    apply Z.mul_nonneg_nonneg; [lia | apply Z.pow_nonneg; lia]. }
  apply Zdigits2_lt_pow; [assumption | lia |].
  apply Z.div_lt_upper_bound; [assumption|].
  apply Z.lt_le_trans with (2 ^ (d1 + s)).
  - rewrite Z.pow_add_r by lia.
    apply Z.mul_lt_mono_pos_r; [apply Z.pow_pos_nonneg; lia | assumption].
  - apply Z.le_trans with (2 ^ (d2 - 1) * 2 ^ K).
    + rewrite <- Z.pow_add_r by lia. apply Z.pow_le_mono_r; lia.
    + apply Z.mul_le_mono_nonneg_r; [apply Z.pow_nonneg; lia | assumption].
Qed.

(** The position of the leading bit of a quotient, before rounding. *)
Lemma div_q_digits (mx my : positive) (ex ey : Z) :
  let D := Zpos (digits2_pos mx) + ex - (Zpos (digits2_pos my) + ey) in
  let e' := Z.min (fexp prec emax D) (ex - ey) in
  let q := Zpos mx * 2 ^ (ex - ey - e') / Zpos my in
  D <= Zdigits2 q + e' <= Z.max (D + 1) (-149).
Proof.
  intros D e' q.
  assert (Hs : 0 <= ex - ey - e') by (unfold e'; lia).
  pose proof (div_digits_lower (Zpos mx) (Zpos my) (ex - ey - e')
                               ltac:(lia) ltac:(lia) Hs) as Hlo.
  pose proof (div_digits_upper (Zpos mx) (Zpos my) (ex - ey - e')
                               ltac:(lia) ltac:(lia) Hs) as Hhi.
  fold q in Hlo, Hhi.
  change (Zdigits2 (Zpos mx)) with (Zpos (digits2_pos mx)) in Hlo, Hhi.
  change (Zdigits2 (Zpos my)) with (Zpos (digits2_pos my)) in Hlo, Hhi.
  assert (He : e' <= Z.max (D - 24) (-149))
    by (unfold e'; rewrite fexp_eq; lia).
  unfold D in *. lia.
Qed.

Lemma of_Z_1e9 : of_Z 1000000000 = S754_finite false 15625000 6.
Proof. reflexivity. Qed.

(** The conversion of a non-zero int64 is a finite non-zero float32 with the
    sign of the integer. *)
Lemma of_Z_int64 (d : Z) :
  - 2 ^ 63 <= d < 2 ^ 63 -> d <> 0 ->
  exists m e, of_Z d = S754_finite (d <? 0) m e
              /\ 1 <= Zpos (digits2_pos m) + e <= 65.
Proof.
  intros Hr Hnz.
  assert (Hd : forall p, Zpos p <= 2 ^ 63 -> 1 <= Zpos (digits2_pos p) <= 64).
  { intros p Hp. change (Zpos (digits2_pos p)) with (Zdigits2 (Zpos p)).
    pose proof (Zdigits2_pos (Zpos p) ltac:(lia)).
    pose proof (Zdigits2_lt_pow (Zpos p) 64 ltac:(lia) ltac:(lia)) as Hu.
    change (2 ^ 64) with (2 * 2 ^ 63) in Hu. lia. }
  destruct d as [|p|p]; [congruence| |].
  - specialize (Hd p ltac:(lia)). unfold of_Z. cbn [binary_normalize].
    pose proof (binary_round_spec false p 0) as H.
    destruct (binary_round prec emax false p 0) as [s|s| |s m e].
    + lia.
    + lia.
    + contradiction.
    + destruct H as (-> & _ & H1 & H2). exists m, e.
      split; [reflexivity | lia].
  - specialize (Hd p ltac:(lia)). unfold of_Z. cbn [binary_normalize].
    pose proof (binary_round_spec true p 0) as H.
    destruct (binary_round prec emax true p 0) as [s|s| |s m e].
    + lia.
    + lia.
    + contradiction.
    + destruct H as (-> & _ & H1 & H2). exists m, e.
      split; [reflexivity | lia].
Qed.

Lemma seconds_int64 (d : Duration) :
  - 2 ^ 63 <= d < 2 ^ 63 -> d <> 0 ->
  exists m e, seconds d = S754_finite (d <? 0) m e
              /\ bounded prec emax m e = true.
Proof.
  intros Hr Hnz. destruct (of_Z_int64 d Hr Hnz) as (m & e & E & Hde).
  unfold seconds. rewrite E, of_Z_1e9.
  pose proof (div_finite_spec (d <? 0) false m 15625000 e 6) as H.
  pose proof (div_q_digits m 15625000 e 6) as Hq.
  cbv zeta in H, Hq.
  change (Zpos (digits2_pos 15625000)) with 24 in H, Hq.
  unfold div.
  destruct (SFdiv prec emax (S754_finite (d <? 0) m e)
                  (S754_finite false 15625000 6)) as [s|s| |s m' e'].
  - lia.
  - lia.
  - contradiction.
  - destruct H as (-> & Hb & _). exists m', e'.
    split; [now rewrite xorb_false_r | assumption].
Qed.

Lemma seconds_0 : seconds 0 = zero.
Proof. reflexivity. Qed.

End Seconds.

(** ** The bit representation and [Abs] *)

Section Bits.

Lemma small_testbit (a n : Z) : 0 <= a < 2 ^ n -> 0 <= n ->
  forall k, n <= k -> Z.testbit a k = false.
Proof.
  intros Ha Hn k Hk. destruct (Z.eq_dec a 0) as [->|Hz].
  - apply Z.bits_0.
  - apply Z.bits_above_log2; [lia|].
    assert (Z.log2 a < n) by (apply Z.log2_lt_pow2; lia). lia.
Qed.

Lemma low_fields (E F : Z) :
  0 <= E < 256 -> 0 <= F < 2 ^ 23 ->
  Z.shiftr (Z.lor (Z.shiftl E 23) F) 23 = E
  /\ Z.land (Z.lor (Z.shiftl E 23) F) (2 ^ 23 - 1) = F
  /\ (forall k, 31 <= k -> Z.testbit (Z.lor (Z.shiftl E 23) F) k = false).
Proof.
  intros HE HF. split; [|split].
  - rewrite Z.shiftr_lor, Z.shiftr_shiftl_l by lia.
    rewrite Z.sub_diag, Z.shiftl_0_r, Z.shiftr_div_pow2 by lia.
    rewrite Z.div_small by lia. apply Z.lor_0_r.
  - change (2 ^ 23 - 1) with (Z.ones 23).
    rewrite Z.land_lor_distr_l, !Z.land_ones by lia.
    rewrite Z.shiftl_mul_pow2 by lia.
    rewrite Z.mod_mul by lia. rewrite Z.mod_small by lia. reflexivity.
  - intros k Hk. rewrite Z.lor_spec, Z.shiftl_spec by lia.
    rewrite (small_testbit E 8) by (change (2 ^ 8) with 256; lia).
    rewrite (small_testbit F 23) by lia. reflexivity.
Qed.

Lemma b2z_testbit (s : bool) (k : Z) : 0 <= k ->
  Z.testbit (Z.shiftl (Z.b2z s) 31) k = if k =? 31 then s else false.
Proof.
  intros Hk. rewrite Z.shiftl_spec by lia.
  destruct (Z.eqb_spec k 31) as [->|Hn].
  - simpl. destruct s; reflexivity.
  - destruct (Z_lt_le_dec k 31).
    + apply Z.testbit_neg_r. lia.
    + destruct s; simpl; [|apply Z.bits_0].
      apply (small_testbit 1 1); lia.
Qed.

(** The three fields of a packed representation. *)
Lemma pack_fields (s : bool) (E F : Z) :
  0 <= E < 256 -> 0 <= F < 2 ^ 23 ->
  Z.testbit (pack s E F) 31 = s
  /\ Z.land (Z.shiftr (pack s E F) 23) 255 = E
  /\ Z.land (pack s E F) (2 ^ 23 - 1) = F.
Proof.
  intros HE HF. destruct (low_fields E F HE HF) as (H1 & H2 & H3).
  unfold pack. split; [|split].
  - rewrite Z.lor_spec, b2z_testbit, H3 by lia. simpl. apply orb_false_r.
  - rewrite Z.shiftr_lor, H1, Z.shiftr_shiftl_l by lia.
    change (31 - 23) with 8. change 255 with (Z.ones 8).
    rewrite Z.land_lor_distr_l, !Z.land_ones by lia.
    rewrite Z.shiftl_mul_pow2 by lia. rewrite Z.mod_mul by lia.
    rewrite Z.mod_small by (change (2 ^ 8) with 256; lia). reflexivity.
  - change (2 ^ 23 - 1) with (Z.ones 23) in *.
    rewrite Z.land_lor_distr_l, H2, Z.land_ones by lia.
    rewrite Z.shiftl_mul_pow2 by lia.
    replace (Z.b2z s * 2 ^ 31) with (Z.b2z s * 2 ^ 8 * 2 ^ 23)
      by (change (2 ^ 31) with (2 ^ 8 * 2 ^ 23); ring).
    rewrite Z.mod_mul by lia. reflexivity.
Qed.

(** Clearing bit 31 clears the sign and nothing else. *)
Lemma pack_clear_sign (s : bool) (E F : Z) :
  0 <= E < 256 -> 0 <= F < 2 ^ 23 ->
  Z.ldiff (pack s E F) (Z.shiftl 1 31) = pack false E F.
Proof.
  intros HE HF. destruct (low_fields E F HE HF) as (_ & _ & H3).
  unfold pack. set (r := Z.lor (Z.shiftl E 23) F) in *.
  apply Z.bits_inj'. intros k Hk.
  rewrite Z.ldiff_spec, !Z.lor_spec.
  change (Z.shiftl 1 31) with (Z.shiftl (Z.b2z true) 31).
  rewrite !b2z_testbit by lia.
  destruct (Z.eqb_spec k 31) as [->|Hn].
  - rewrite H3 by lia. destruct s; reflexivity.
  - simpl. now rewrite andb_true_r.
Qed.

Lemma frombits_pack (s : bool) (E F : Z) :
  0 <= E < 256 -> 0 <= F < 2 ^ 23 ->
  Float32frombits (pack s E F)
  = if E =? 0 then
      match F with Zpos m => S754_finite s m (-149) | _ => S754_zero s end
    else if E =? 255 then (if F =? 0 then S754_infinity s else S754_nan)
    else match F + 2 ^ 23 with
         | Zpos m => S754_finite s m (E - 150)
         | _ => S754_nan
         end.
Proof.
  intros HE HF. destruct (pack_fields s E F HE HF) as (H1 & H2 & H3).
  unfold Float32frombits. cbv zeta. now rewrite H1, H2, H3.
Qed.

(** The fields of a float of the format. *)
Lemma finite_fields (m : positive) (e : Z) :
  bounded prec emax m e = true ->
  (Zpos m < 2 ^ 23 /\ e = -149)
  \/ (2 ^ 23 <= Zpos m < 2 ^ 24 /\ -149 <= e <= 104).
Proof.
  intros Hb. apply bounded_inv in Hb. destruct Hb as [Hc He].
  pose proof (Zdigits2_bounds (Zpos m) ltac:(lia)) as [Hlo Hhi].
  change (Zdigits2 (Zpos m)) with (Zpos (digits2_pos m)) in *.
  destruct (Z_lt_le_dec (Zpos m) (2 ^ 23)) as [Hs|Hn].
  - left. split; [assumption|].
    assert (Zpos (digits2_pos m) <= 23); [|lia].
    change (Zpos (digits2_pos m)) with (Zdigits2 (Zpos m)).
    apply Zdigits2_lt_pow; lia.
  - right.
    assert (24 <= Zpos (digits2_pos m)).
    { change (Zpos (digits2_pos m)) with (Zdigits2 (Zpos m)).
      apply (Zdigits2_ge_pow (Zpos m) 23); lia. }
    assert (Hd : Zpos (digits2_pos m) = 24) by lia.
    rewrite Hd in Hhi. lia.
Qed.

(** Reading back the representation of a float of the format returns it. *)
Lemma Float32frombits_bits (x : float32) :
  valid x = true -> Float32frombits (Float32bits x) = x.
Proof.
  destruct x as [s|s| |s m e]; intros Hv; unfold Float32bits.
  - now rewrite frombits_pack by lia.
  - now rewrite frombits_pack by lia.
  - now rewrite frombits_pack by (change (2 ^ 22) with 4194304; lia).
  - simpl in Hv. destruct (finite_fields m e Hv) as [[Hm He]|[Hm He]].
    + replace (Zpos m <? 2 ^ 23) with true by (symmetry; apply Z.ltb_lt; lia).
      rewrite frombits_pack by lia. simpl. now subst e.
    + replace (Zpos m <? 2 ^ 23) with false by (symmetry; apply Z.ltb_ge; lia).
      change (2 ^ 24) with (2 * 2 ^ 23) in Hm.
      rewrite frombits_pack by lia.
      replace (e + 150 =? 0) with false by (symmetry; apply Z.eqb_neq; lia).
      replace (e + 150 =? 255) with false by (symmetry; apply Z.eqb_neq; lia).
      replace (Zpos m - 2 ^ 23 + 2 ^ 23) with (Zpos m) by lia.
      f_equal. lia.
Qed.

Lemma Float32bits_clear_sign (x : float32) :
  valid x = true ->
  Z.ldiff (Float32bits x) (Z.shiftl 1 31) = Float32bits (SFabs x).
Proof.
  destruct x as [s|s| |s m e]; intros Hv; unfold Float32bits, SFabs.
  - apply pack_clear_sign; lia.
  - apply pack_clear_sign; lia.
  - apply pack_clear_sign; change (2 ^ 22) with 4194304; lia.
  - simpl in Hv. destruct (finite_fields m e Hv) as [[Hm He]|[Hm He]].
    + replace (Zpos m <? 2 ^ 23) with true by (symmetry; apply Z.ltb_lt; lia).
      apply pack_clear_sign; lia.
    + replace (Zpos m <? 2 ^ 23) with false by (symmetry; apply Z.ltb_ge; lia).
      change (2 ^ 24) with (2 * 2 ^ 23) in Hm.
      apply pack_clear_sign; lia.
Qed.

Lemma valid_SFabs (x : float32) : valid x = true -> valid (SFabs x) = true.
Proof. destruct x; intros H; exact H. Qed.

Lemma Abs_SFabs (x : float32) : valid x = true -> Abs x = SFabs x.
Proof.
  intros Hv. unfold Abs. rewrite Float32bits_clear_sign by assumption.
  apply Float32frombits_bits. now apply valid_SFabs.
Qed.

End Bits.

(** ** float32.go *)

(** X1.  [IsNaN(f)], written [f != f], is true for NaN and for nothing
    else. *)
Theorem IsNaN_spec : forall f : float32, IsNaN f = is_nan f.
Proof.
  intros f. unfold IsNaN. destruct (is_nan f) eqn:E.
  - apply is_nan_eq in E. subst f. reflexivity.
  - now rewrite eqb_refl.
Qed.

(** X2.  On every float32, [Abs], which clears bit 31 of the
    representation, is the absolute value: it returns [x] when the sign of
    [x] is clear and [-x] otherwise, so its result has a clear sign, is NaN
    exactly when [x] is, is at least 0 otherwise, and [Abs(-x) = Abs(x)],
    [Abs(Abs(x)) = Abs(x)]. *)
Theorem Abs_spec :
  forall x : float32,
    valid x = true ->
    Abs x = (if signbit x then (- x)%f32 else x)
    /\ signbit (Abs x) = false
    /\ is_nan (Abs x) = is_nan x
    /\ (is_nan x = false -> leb zero (Abs x) = true)
    /\ Abs (- x)%f32 = Abs x
    /\ Abs (Abs x) = Abs x.
Proof.
  intros x Hv.
  assert (Hn : valid (- x)%f32 = true) by (destruct x; exact Hv).
  rewrite (Abs_SFabs (- x)%f32 Hn), (Abs_SFabs x Hv).
  rewrite (Abs_SFabs (SFabs x) (valid_SFabs x Hv)).
  destruct x as [[]|[]| |[] m e]; repeat split; intros; try reflexivity;
    discriminate.
Qed.

Lemma Abs_spec_witness :
  valid (of_Z (-3)) = true /\ Abs (of_Z (-3)) = of_Z 3.
Proof.
  split; [reflexivity|].
  rewrite (proj1 (Abs_spec (of_Z (-3)) eq_refl)). reflexivity.
Defined.

(** X3.  For every int64 duration [d], [seconds(d)] is a finite float32 of
    the format (never NaN, never infinite), negative exactly when [d] is,
    and zero exactly when [d] is 0: no non-zero duration underflows to a
    zero sampling interval. *)
Theorem seconds_spec :
  forall d : Duration,
    - 2 ^ 63 <= d < 2 ^ 63 ->
    valid (seconds d) = true
    /\ is_finite (seconds d) = true
    /\ signbit (seconds d) = (d <? 0)
    /\ is_zero (seconds d) = (d =? 0).
Proof.
  intros d Hr. split; [apply valid_seconds|].
  destruct (Z.eq_dec d 0) as [->|Hnz]; [repeat split|].
  destruct (seconds_int64 d Hr Hnz) as (m & e & -> & _).
  repeat split. symmetry. now apply Z.eqb_neq.
Qed.

Lemma seconds_spec_witness :
  - 2 ^ 63 <= 100 * Millisecond < 2 ^ 63
  /\ is_finite (seconds (100 * Millisecond)) = true.
Proof.
  assert (H : - 2 ^ 63 <= 100 * Millisecond < 2 ^ 63)
    by (unfold Millisecond; lia).
  split; [exact H|]. apply (seconds_spec (100 * Millisecond) H).
Defined.

(** X4.  [MaxFloat32] is a float of the format and the largest finite one:
    every float of the format that is neither infinite nor NaN lies between
    [-MaxFloat32] and [MaxFloat32], and the only float above [MaxFloat32] is
    [+Inf]. *)
Theorem MaxFloat32_largest :
  valid MaxFloat32 = true
  /\ forall x : float32,
      valid x = true ->
      (is_finite x = true ->
       leb (- MaxFloat32)%f32 x = true /\ leb x MaxFloat32 = true)
      /\ (ltb MaxFloat32 x = true -> x = pinf).
Proof.
  split; [reflexivity|]. intros x Hv. split.
  - intros Hf. destruct (valid_le_MaxFloat32 x Hv Hf). now split.
  - intros Hlt. destruct x as [s|s| |s m e]; try discriminate.
    + destruct s; [discriminate | reflexivity].
    + destruct (valid_le_MaxFloat32 _ Hv eq_refl) as [Hle _].
      apply ltb_gt in Hlt. unfold SFleb in Hle. rewrite Hlt in Hle.
      discriminate.
Qed.

Lemma MaxFloat32_largest_witness :
  valid (of_Z 1000000) = true
  /\ leb (of_Z 1000000) MaxFloat32 = true.
Proof.
  split; [reflexivity|].
  apply (proj1 (proj2 MaxFloat32_largest (of_Z 1000000) eq_refl) eq_refl).
Defined.

(** ** controller.go *)

(** X5.  The basic controller does not guard a zero sampling interval: with
    [SamplingInterval = 0] the derivative is a division by zero, so the
    stored derivative and the stored control signal are each an infinity or
    a NaN, whatever the gains, the state and the signals. *)
Theorem basic_update_zero_interval :
  forall (c : PID.Controller) (input : PID.ControllerInput),
    PID.SamplingInterval input = 0 ->
    let s := PID.State (PID.Update c input) in
    is_finite (PID.ControlErrorDerivative s) = false
    /\ is_finite (PID.ControlSignal s) = false.
Proof.
  intros c input H s. subst s. unfold PID.Update.
  cbn [PID.State PID.ControlErrorDerivative PID.ControlSignal].
  rewrite H, seconds_0. split.
  - apply div_zero_not_finite.
  - apply add_not_finite_r, mul_not_finite_r, div_zero_not_finite.
Qed.

Lemma basic_update_zero_interval_witness :
  let input := {| PID.ReferenceSignal := of_Z 10; PID.ActualSignal := zero;
                  PID.SamplingInterval := 0 |} in
  PID.SamplingInterval input = 0
  /\ is_finite (PID.ControlSignal (PID.State (PID.Update Examples.pid input)))
     = false.
Proof.
  intros input. split; [reflexivity|].
  apply (basic_update_zero_interval Examples.pid input eq_refl).
Defined.

(** ** The anti-windup and tracking controllers *)

Lemma lowpass_zero_tau (dt e E0 D0 : float32) :
  lowpass_law zero dt e E0 D0 = nan.
Proof.
  unfold lowpass_law. apply div_not_finite_nan.
  - apply add_not_finite_l, mul_not_finite_l. reflexivity.
  - apply add_not_finite_l, div_zero_not_finite.
Qed.

(** X6.  A zero [LowPassTimeConstant], which is what the zero value of the
    configuration holds, makes every [Update] of the anti-windup controller,
    and of the tracking controller, store NaN as derivative, unsaturated
    signal, control signal and integrand, whatever the inputs and the
    state. *)
Theorem update_zero_lowpass_is_nan :
  (forall (c : AW.AntiWindupController) input,
      AW.LowPassTimeConstant (AW.Config c) = 0 ->
      let s := AW.State (AW.Update c input) in
      AW.ControlErrorDerivative s = nan
      /\ AW.UnsaturatedControlSignal s = nan
      /\ AW.ControlSignal s = nan
      /\ AW.ControlErrorIntegrand s = nan)
  /\ (forall (c : TR.TrackingController) input,
         TR.LowPassTimeConstant (TR.Config c) = 0 ->
         let s := TR.State (TR.Update c input) in
         TR.ControlErrorDerivative s = nan
         /\ TR.UnsaturatedControlSignal s = nan
         /\ TR.ControlSignal s = nan
         /\ TR.ControlErrorIntegrand s = nan).
Proof.
  split.
  - intros c input H s. subst s.
    rewrite (proj1 (AW_Update_State c input)).
    cbn [AW.ControlErrorDerivative AW.UnsaturatedControlSignal
         AW.ControlSignal AW.ControlErrorIntegrand].
    rewrite H, seconds_0, lowpass_zero_tau. unfold clamp, clampMax, clamp.
    autorewrite with nan. repeat split.
  - intros c input H s. subst s.
    rewrite (proj1 (TR_Update_State c input)).
    cbn [TR.ControlErrorDerivative TR.UnsaturatedControlSignal
         TR.ControlSignal TR.ControlErrorIntegrand].
    rewrite H, seconds_0, lowpass_zero_tau. unfold clamp, clampMax, clamp.
    autorewrite with nan. repeat split.
Qed.

Lemma update_zero_lowpass_is_nan_witness :
  AW.LowPassTimeConstant (AW.Config Examples.awZeroValue) = 0
  /\ AW.ControlSignal
       (AW.State (AW.Update Examples.awZeroValue (Examples.awStep 10 0))) = nan.
Proof.
  split; [reflexivity|].
  apply (proj1 update_zero_lowpass_is_nan Examples.awZeroValue
               (Examples.awStep 10 0) eq_refl).
Defined.

(** X7.  While the output of the anti-windup controller does not saturate
    (the unsaturated signal is finite and within the output bounds) and the
    anti-windup gain is finite, the correction term vanishes: the stored
    integrand is the stored control error (both may be zeros of either
    sign). *)
Theorem antiwindup_unsaturated_integrand :
  forall (c : AW.AntiWindupController) input,
    let s := AW.State (AW.Update c input) in
    within (AW.MinOutput (AW.Config c)) (AW.MaxOutput (AW.Config c))
           (AW.UnsaturatedControlSignal s) ->
    is_finite (AW.UnsaturatedControlSignal s) = true ->
    is_finite (AW.AntiWindUpGain (AW.Config c)) = true ->
    AW.ControlErrorIntegrand s = AW.ControlError s
    \/ (is_zero (AW.ControlErrorIntegrand s) = true
        /\ is_zero (AW.ControlError s) = true).
Proof.
  intros c input s. subst s.
  destruct (AW_Update_State c input) as [-> _].
  cbn [AW.UnsaturatedControlSignal AW.ControlErrorIntegrand AW.ControlError].
  set (u := (_ + AW.FeedForwardSignal input)%f32).
  set (e := (AW.ReferenceSignal input - AW.ActualSignal input)%f32).
  intros [Hlo Hhi] Hf Hk.
  destruct (clamp_inside _ _ _ Hlo Hhi) as [Heq _].
  fold (clamp u (AW.MinOutput (AW.Config c)) (AW.MaxOutput (AW.Config c)))
    in Heq.
  pose proof (sub_eqb_zero _ _ Heq Hf) as Hz.
  pose proof (mul_finite_zero _ _ Hk Hz) as Hz'.
  destruct (add_zero_r e _ Hz') as [->|[He Hez]].
  - left. reflexivity.
  - right. rewrite !clampMax_zero by assumption. now split.
Qed.

Lemma antiwindup_unsaturated_integrand_witness :
  let s := AW.State (AW.Update Examples.aw (Examples.awStep 10 0)) in
  within (of_Z (-100)) (of_Z 100) (AW.UnsaturatedControlSignal s)
  /\ AW.ControlErrorIntegrand s = AW.ControlError s.
Proof.
  intros s.
  assert (Hw : within (of_Z (-100)) (of_Z 100) (AW.UnsaturatedControlSignal s))
    by (split; vm_compute; reflexivity).
  split; [exact Hw|].
  destruct (antiwindup_unsaturated_integrand Examples.aw (Examples.awStep 10 0)
              Hw eq_refl eq_refl) as [H|[H _]].
  - exact H.
  - vm_compute in H. discriminate H.
Defined.

Lemma clamp_saturated (lo hi u : float32) :
  leb lo hi = true ->
  (ltb u lo = true -> clamp u lo hi = lo)
  /\ (ltb hi u = true ->
      eqb (clamp u lo hi) hi = true
      /\ (is_zero hi = false -> clamp u lo hi = hi)).
Proof.
  intros Hle. unfold clamp. split.
  - intros Hlt.
    pose proof (ltb_leb_trans _ _ _ Hlt Hle) as Hlt'.
    unfold min. rewrite (ltb_gt _ _ Hlt').
    unfold max. now rewrite (ltb_gt _ _ Hlt).
  - intros Hlt. unfold min. rewrite (proj1 (ltb_compare _ _) Hlt).
    destruct (leb_not_nan _ _ Hle) as [_ Hhi].
    destruct (leb_compare _ _ Hle) as (c & E & Hc).
    unfold max. rewrite E. destruct c; [|split; [now apply eqb_refl | reflexivity] | congruence].
    destruct (compare_Eq_inv _ _ E) as [->|[Hz1 Hz2]].
    + destruct (signbit hi); split; try reflexivity; now apply eqb_refl.
    + destruct (signbit lo).
      * split; [now apply eqb_refl | reflexivity].
      * split; [|congruence]. unfold eqb, SFeqb. now rewrite E.
Qed.

(** X8.  With [MinOutput <= MaxOutput], an unsaturated signal below
    [MinOutput] is stored as the control signal [MinOutput], and one above
    [MaxOutput] as [MaxOutput] (as a float32 value, and as the identical
    float when [MaxOutput] is not a zero), for the anti-windup and the
    tracking controller. *)
Theorem control_signal_saturated :
  (forall (c : AW.AntiWindupController) input,
      leb (AW.MinOutput (AW.Config c)) (AW.MaxOutput (AW.Config c)) = true ->
      let s := AW.State (AW.Update c input) in
      let lo := AW.MinOutput (AW.Config c) in
      let hi := AW.MaxOutput (AW.Config c) in
      (ltb (AW.UnsaturatedControlSignal s) lo = true ->
       AW.ControlSignal s = lo)
      /\ (ltb hi (AW.UnsaturatedControlSignal s) = true ->
          eqb (AW.ControlSignal s) hi = true
          /\ (is_zero hi = false -> AW.ControlSignal s = hi)))
  /\ (forall (c : TR.TrackingController) input,
         leb (TR.MinOutput (TR.Config c)) (TR.MaxOutput (TR.Config c)) = true ->
         let s := TR.State (TR.Update c input) in
         let lo := TR.MinOutput (TR.Config c) in
         let hi := TR.MaxOutput (TR.Config c) in
         (ltb (TR.UnsaturatedControlSignal s) lo = true ->
          TR.ControlSignal s = lo)
         /\ (ltb hi (TR.UnsaturatedControlSignal s) = true ->
             eqb (TR.ControlSignal s) hi = true
             /\ (is_zero hi = false -> TR.ControlSignal s = hi))).
Proof.
  split.
  - intros c input Hle s lo hi. subst s lo hi.
    rewrite AW_Update_signal. now apply clamp_saturated.
  - intros c input Hle s lo hi. subst s lo hi.
    rewrite TR_Update_signal. now apply clamp_saturated.
Qed.

Lemma control_signal_saturated_witness :
  let s := AW.State (AW.Update Examples.aw (Examples.awStep 1000 0)) in
  leb (of_Z (-100)) (of_Z 100) = true
  /\ ltb (of_Z 100) (AW.UnsaturatedControlSignal s) = true
  /\ AW.ControlSignal s = of_Z 100.
Proof.
  intros s. split; [reflexivity|]. split; [reflexivity|].
  apply (proj2 (proj1 control_signal_saturated Examples.aw
                      (Examples.awStep 1000 0) eq_refl));
    reflexivity.
Defined.

(** ** Discharging the integral, outside the nominal range *)

Lemma finite_ge_bound (m M : positive) (e E : Z) :
  E < e \/ (e = E /\ Zpos M <= Zpos m) ->
  SFcompare (S754_finite false m e) (S754_finite false M E) = Some Eq
  \/ SFcompare (S754_finite false m e) (S754_finite false M E) = Some Gt.
Proof.
  intros H. unfold SFcompare.
  change (Pos.compare_cont Eq m M) with (Z.compare (Zpos m) (Zpos M)).
  destruct (Z.compare_spec e E) as [H1|H1|H1]; try lia; auto.
  destruct (Z.compare_spec (Zpos m) (Zpos M)) as [H2|H2|H2]; try lia; auto.
Qed.

Lemma ge_one_compare (m : positive) (e : Z) :
  bounded prec emax m e = true -> 1 <= Zpos (digits2_pos m) + e ->
  SFcompare (S754_finite false m e) one = Some Eq
  \/ SFcompare (S754_finite false m e) one = Some Gt.
Proof.
  intros Hb Hd. apply bounded_inv in Hb. destruct Hb as [Hc _].
  pose proof (Zdigits2_bounds (Zpos m) ltac:(lia)) as [Hlo _].
  change (Zdigits2 (Zpos m)) with (Zpos (digits2_pos m)) in Hlo.
  assert (Hdm : Zpos (digits2_pos m) = 24) by lia.
  rewrite Hdm in Hlo. change (2 ^ (24 - 1)) with 8388608 in Hlo.
  unfold one. apply finite_ge_bound. lia.
Qed.

Lemma min_ge_one (f : float32) :
  (f = pinf
   \/ exists m e, f = S754_finite false m e
                  /\ bounded prec emax m e = true
                  /\ 1 <= Zpos (digits2_pos m) + e) ->
  max zero (min f one) = one.
Proof.
  intros [->|(m & e & -> & Hb & Hd)]; [reflexivity|].
  unfold min. destruct (ge_one_compare m e Hb Hd) as [-> | ->]; reflexivity.
Qed.

(** One minus a float that is a zero or negative is at least one. *)
Lemma sub_one_neg (q : float32) :
  is_zero q = true \/ (signbit q = true /\ is_nan q = false) ->
  sub one q = pinf
  \/ exists m e, sub one q = S754_finite false m e
                 /\ bounded prec emax m e = true
                 /\ 1 <= Zpos (digits2_pos m) + e.
Proof.
  assert (Hone : exists m e, one = S754_finite false m e
                             /\ bounded prec emax m e = true
                             /\ 1 <= Zpos (digits2_pos m) + e)
    by (exists 8388608%positive, (-23); repeat split; discriminate).
  intros [Hz|[Hs Hn]].
  - destruct q as [s| | |]; try discriminate. right. exact Hone.
  - destruct q as [s|s| |s m e]; simpl in Hs; try discriminate; subst s.
    + right. exact Hone.
    + left. reflexivity.
    + unfold sub, one, SFsub, cond_Zopp.
      set (ez := Z.min (-23) e).
      destruct (shl_align_spec 8388608 (-23) ez) as [_ HA].
      destruct (shl_align_spec m e ez) as [_ HB].
      replace (Z.min (-23) ez) with ez in HA by (unfold ez; lia).
      replace (Z.min e ez) with ez in HB by (unfold ez; lia).
      set (A := fst (shl_align 8388608 (-23) ez)) in *.
      set (B := fst (shl_align m e ez)) in *.
      replace (Zpos A - - Zpos B) with (Zpos (A + B)) by lia.
      cbn [binary_normalize].
      pose proof (binary_round_spec false (A + B) ez) as H.
      assert (Hd : 1 <= Zpos (digits2_pos (A + B)) + ez).
      { change (Zpos (digits2_pos (A + B))) with (Zdigits2 (Zpos (A + B))).
        assert (HdA : Zdigits2 (Zpos A) = 24 + (-23 - ez)).
        { rewrite HA. rewrite Zdigits2_mul_pow by (unfold ez; lia).
          reflexivity. }
        pose proof (Zdigits2_le (Zpos A) (Zpos (A + B)) ltac:(lia)). lia. }
      destruct (binary_round prec emax false (A + B) ez) as [s'|s'| |s' m' e'].
      * lia.
      * destruct H as [-> _]. left. reflexivity.
      * contradiction.
      * destruct H as (-> & Hb & Hlo & _). right. exists m', e'.
        split; [reflexivity|]. split; [assumption | lia].
Qed.

Lemma div_neg_pos (x T : float32) (m : positive) (e : Z) :
  x = S754_finite true m e -> is_finite T = true -> ltb zero T = true ->
  is_zero (x / T)%f32 = true
  \/ (signbit (x / T)%f32 = true /\ is_nan (x / T)%f32 = false).
Proof.
  intros -> Hf Hpos.
  destruct T as [s|s| |s mT eT]; try discriminate.
  destruct s; [discriminate|].
  pose proof (div_finite_spec true false m mT e eT) as H. cbv zeta in H.
  unfold div.
  destruct (SFdiv prec emax (S754_finite true m e) (S754_finite false mT eT))
    as [s'|s'| |s' m' e'].
  - left. reflexivity.
  - destruct H as [-> _]. right. split; reflexivity.
  - contradiction.
  - destruct H as [-> _]. right. split; reflexivity.
Qed.

Lemma discharge_factor_negative (dt : Duration) (T : float32) :
  - 2 ^ 63 <= dt < 0 -> is_finite T = true -> ltb zero T = true ->
  discharge_factor (seconds dt) T = one.
Proof.
  intros Hr Hf Hpos.
  destruct (seconds_int64 dt ltac:(lia) ltac:(lia)) as (m & e & E & _).
  replace (dt <? 0) with true in E by (symmetry; apply Z.ltb_lt; lia).
  unfold discharge_factor.
  apply min_ge_one, sub_one_neg. eapply div_neg_pos; eassumption.
Qed.

Lemma discharge_factor_zero_T (dt : Duration) :
  0 < dt < 2 ^ 63 -> discharge_factor (seconds dt) zero = zero.
Proof.
  intros Hr.
  destruct (seconds_int64 dt ltac:(lia) ltac:(lia)) as (m & e & E & _).
  replace (dt <? 0) with false in E by (symmetry; apply Z.ltb_ge; lia).
  rewrite E. reflexivity.
Qed.

(** X9.  A zero [IntegralDischargeTimeConstant], which is what the zero
    value of the configuration holds, is not guarded: [DischargeIntegral(0)]
    stores NaN as the integral (0/0), and [DischargeIntegral(dt)] with a
    positive int64 [dt] drops a finite integral to zero at once. *)
Theorem discharge_zero_time_constant :
  (forall (c : AW.AntiWindupController),
      AW.IntegralDischargeTimeConstant (AW.Config c) = zero ->
      AW.ControlErrorIntegral (AW.State (AW.DischargeIntegral c 0)) = nan
      /\ forall dt,
          0 < dt < 2 ^ 63 ->
          is_finite (AW.ControlErrorIntegral (AW.State c)) = true ->
          is_zero (AW.ControlErrorIntegral
                     (AW.State (AW.DischargeIntegral c dt))) = true)
  /\ (forall (c : TR.TrackingController),
         TR.IntegralDischargeTimeConstant (TR.Config c) = zero ->
         TR.ControlErrorIntegral (TR.State (TR.DischargeIntegral c 0)) = nan
         /\ forall dt,
             0 < dt < 2 ^ 63 ->
             is_finite (TR.ControlErrorIntegral (TR.State c)) = true ->
             is_zero (TR.ControlErrorIntegral
                        (TR.State (TR.DischargeIntegral c dt))) = true).
Proof.
  split.
  - intros c HT. split.
    + change (AW.ControlErrorIntegral (AW.State (AW.DischargeIntegral c 0)))
        with (discharge_factor (seconds 0)
                (AW.IntegralDischargeTimeConstant (AW.Config c))
              * AW.ControlErrorIntegral (AW.State c))%f32.
      rewrite HT. reflexivity.
    + intros dt Hr Hf.
      change (AW.ControlErrorIntegral (AW.State (AW.DischargeIntegral c dt)))
        with (discharge_factor (seconds dt)
                (AW.IntegralDischargeTimeConstant (AW.Config c))
              * AW.ControlErrorIntegral (AW.State c))%f32.
      rewrite HT, discharge_factor_zero_T by assumption.
      now apply mul_zero_finite.
  - intros c HT. split.
    + change (TR.ControlErrorIntegral (TR.State (TR.DischargeIntegral c 0)))
        with (discharge_factor (seconds 0)
                (TR.IntegralDischargeTimeConstant (TR.Config c))
              * TR.ControlErrorIntegral (TR.State c))%f32.
      rewrite HT. reflexivity.
    + intros dt Hr Hf.
      change (TR.ControlErrorIntegral (TR.State (TR.DischargeIntegral c dt)))
        with (discharge_factor (seconds dt)
                (TR.IntegralDischargeTimeConstant (TR.Config c))
              * TR.ControlErrorIntegral (TR.State c))%f32.
      rewrite HT, discharge_factor_zero_T by assumption.
      now apply mul_zero_finite.
Qed.

Lemma discharge_zero_time_constant_witness :
  AW.IntegralDischargeTimeConstant (AW.Config Examples.awChargedT0) = zero
  /\ AW.ControlErrorIntegral
       (AW.State (AW.DischargeIntegral Examples.awChargedT0 0)) = nan
  /\ is_zero (AW.ControlErrorIntegral
                (AW.State (AW.DischargeIntegral Examples.awChargedT0
                             Millisecond))) = true.
Proof.
  destruct (proj1 discharge_zero_time_constant Examples.awChargedT0 eq_refl)
    as [H0 H1].
  split; [reflexivity|]. split; [exact H0|].
  apply H1; [unfold Millisecond; lia | reflexivity].
Defined.

(** X10.  A negative [dt] never amplifies the integral: with a finite
    positive time constant and a negative int64 [dt] the factor is clamped
    at 1, and [DischargeIntegral] leaves the integral as it is. *)
Theorem discharge_negative_dt :
  (forall (c : AW.AntiWindupController) (dt : Duration),
      - 2 ^ 63 <= dt < 0 ->
      is_finite (AW.IntegralDischargeTimeConstant (AW.Config c)) = true ->
      ltb zero (AW.IntegralDischargeTimeConstant (AW.Config c)) = true ->
      valid (AW.ControlErrorIntegral (AW.State c)) = true ->
      AW.ControlErrorIntegral (AW.State (AW.DischargeIntegral c dt))
      = AW.ControlErrorIntegral (AW.State c))
  /\ (forall (c : TR.TrackingController) (dt : Duration),
         - 2 ^ 63 <= dt < 0 ->
         is_finite (TR.IntegralDischargeTimeConstant (TR.Config c)) = true ->
         ltb zero (TR.IntegralDischargeTimeConstant (TR.Config c)) = true ->
         valid (TR.ControlErrorIntegral (TR.State c)) = true ->
         TR.ControlErrorIntegral (TR.State (TR.DischargeIntegral c dt))
         = TR.ControlErrorIntegral (TR.State c)).
Proof.
  split.
  - intros c dt Hr Hf Hpos Hv.
    change (AW.ControlErrorIntegral (AW.State (AW.DischargeIntegral c dt)))
      with (discharge_factor (seconds dt)
              (AW.IntegralDischargeTimeConstant (AW.Config c))
            * AW.ControlErrorIntegral (AW.State c))%f32.
    rewrite discharge_factor_negative by assumption. now apply mul_one_l.
  - intros c dt Hr Hf Hpos Hv.
    change (TR.ControlErrorIntegral (TR.State (TR.DischargeIntegral c dt)))
      with (discharge_factor (seconds dt)
              (TR.IntegralDischargeTimeConstant (TR.Config c))
            * TR.ControlErrorIntegral (TR.State c))%f32.
    rewrite discharge_factor_negative by assumption. now apply mul_one_l.
Qed.

Lemma discharge_negative_dt_witness :
  - 2 ^ 63 <= - Second < 0
  /\ AW.ControlErrorIntegral
       (AW.State (AW.DischargeIntegral Examples.awCharged (- Second)))
     = of_Z 8.
Proof.
  assert (H : - 2 ^ 63 <= - Second < 0) by (unfold Second; lia).
  split; [exact H|].
  apply (proj1 discharge_negative_dt Examples.awCharged (- Second) H);
    reflexivity.
Defined.

(** X11.  The factor by which [DischargeIntegral] multiplies the integral is
    NaN exactly when [1 - seconds(dt)/T] is, and lies within [[0, 1]]
    otherwise: the discharge never reverses the sign of the integral and
    never scales it up. *)
Theorem discharge_factor_in_unit_interval :
  forall (dt : Duration) (T : float32),
    let k := max zero (min (one - seconds dt / T)%f32 one) in
    is_nan k = is_nan (one - seconds dt / T)%f32
    /\ (is_nan k = true \/ within zero one k)
    /\ (forall c : AW.AntiWindupController,
           AW.IntegralDischargeTimeConstant (AW.Config c) = T ->
           AW.ControlErrorIntegral (AW.State (AW.DischargeIntegral c dt))
           = (k * AW.ControlErrorIntegral (AW.State c))%f32)
    /\ (forall c : TR.TrackingController,
           TR.IntegralDischargeTimeConstant (TR.Config c) = T ->
           TR.ControlErrorIntegral (TR.State (TR.DischargeIntegral c dt))
           = (k * TR.ControlErrorIntegral (TR.State c))%f32).
Proof.
  intros dt T k. subst k. split; [|split; [|split]].
  - rewrite max_is_nan, min_is_nan. simpl. now rewrite orb_false_r.
  - apply discharge_factor_range.
  - intros c <-. reflexivity.
  - intros c <-. reflexivity.
Qed.

(** ** How the operations compose *)

(** X12.  No [Update] and no [DischargeIntegral] ever changes the
    configuration, and [Reset] erases whatever a run of updates or a
    discharge did: resetting afterwards gives the controller that resetting
    before gives, for all four controllers. *)
Theorem reset_after_run :
  (forall (c : PID.Controller) inputs,
      PID.Config (PID.Updates c inputs) = PID.Config c
      /\ PID.Reset (PID.Updates c inputs) = PID.Reset c)
  /\ (forall (c : PI.PIController) inputs,
         PI.Config (PI.Updates c inputs) = PI.Config c
         /\ PI.Reset (PI.Updates c inputs) = PI.Reset c)
  /\ (forall (c : AW.AntiWindupController) inputs dt,
         AW.Config (AW.Updates c inputs) = AW.Config c
         /\ AW.Reset (AW.Updates c inputs) = AW.Reset c
         /\ AW.Reset (AW.DischargeIntegral (AW.Updates c inputs) dt)
            = AW.Reset c)
  /\ (forall (c : TR.TrackingController) inputs dt,
         TR.Config (TR.Updates c inputs) = TR.Config c
         /\ TR.Reset (TR.Updates c inputs) = TR.Reset c
         /\ TR.Reset (TR.DischargeIntegral (TR.Updates c inputs) dt)
            = TR.Reset c).
Proof.
  split; [|split; [|split]].
  - intros c inputs. split; [apply PID_Updates_Config|].
    unfold PID.Reset. now rewrite PID_Updates_Config.
  - intros c inputs. split; [apply PI_Updates_Config|].
    unfold PI.Reset. now rewrite PI_Updates_Config.
  - intros c inputs dt. split; [apply AW_Updates_Config|].
    unfold AW.Reset, AW.DischargeIntegral. cbn [AW.Config].
    now rewrite AW_Updates_Config.
  - intros c inputs dt. split; [apply TR_Updates_Config|].
    unfold TR.Reset, TR.DischargeIntegral. cbn [TR.Config].
    now rewrite TR_Updates_Config.
Qed.

Lemma tracking_step_follows (c : TR.TrackingController)
      (i : TR.TrackingControllerInput) :
  TR.AppliedControlSignal i = TR.ControlSignal (TR.State (TR.Update c i)) ->
  TR.toAntiWindup (TR.Update c i)
  = AW.Update (TR.toAntiWindup c) (TR.toAntiWindupInput i).
Proof.
  intros H. destruct c as [cfg st]. destruct i as [r a ff app dt].
  unfold TR.Update in H.
  cbn [TR.State TR.ControlSignal TR.AppliedControlSignal TR.ReferenceSignal
       TR.ActualSignal TR.FeedForwardSignal TR.SamplingInterval TR.Config]
    in H.
  subst app. reflexivity.
Qed.

(** X13.  Bumpless by construction: as long as the actuator applies the
    control signal that the tracking controller computes, a run of the
    tracking controller is, update for update, the run of the anti-windup
    controller with the same configuration, state and inputs. *)
Theorem tracking_follows_antiwindup :
  forall (inputs : list TR.TrackingControllerInput) (c : TR.TrackingController),
    follows c inputs ->
    TR.toAntiWindup (TR.Updates c inputs)
    = AW.Updates (TR.toAntiWindup c) (map TR.toAntiWindupInput inputs).
Proof.
  induction inputs as [|i l IH]; intros c H; [reflexivity|].
  destruct H as [Hi Hl].
  unfold TR.Updates, AW.Updates in *. cbn [fold_left map].
  rewrite <- (tracking_step_follows c i Hi). now apply IH.
Qed.

Lemma tracking_follows_antiwindup_witness :
  follows Examples.tr [Examples.trFollow]
  /\ TR.toAntiWindup (TR.Updates Examples.tr [Examples.trFollow])
     = AW.Updates (TR.toAntiWindup Examples.tr)
                  (map TR.toAntiWindupInput [Examples.trFollow]).
Proof.
  assert (H : follows Examples.tr [Examples.trFollow])
    by (split; [vm_compute; reflexivity | exact I]).
  split; [exact H|].
  apply (tracking_follows_antiwindup [Examples.trFollow] Examples.tr H).
Defined.

(** ** NaN does not go away *)

Lemma clamp_nan_gen (lo hi x : float32) :
  is_nan x = true -> is_nan (max lo (min hi x)) = true.
Proof. intros H. rewrite clamp_is_nan, H. apply orb_true_r. Qed.

Lemma add_is_nan_l (x y : float32) :
  is_nan x = true -> is_nan (x + y)%f32 = true.
Proof. intros H. apply is_nan_eq in H. now subst. Qed.

Lemma add_is_nan_r (x y : float32) :
  is_nan y = true -> is_nan (x + y)%f32 = true.
Proof. intros H. apply is_nan_eq in H. subst. now rewrite add_nan_r. Qed.

Lemma mul_is_nan_r (x y : float32) :
  is_nan y = true -> is_nan (x * y)%f32 = true.
Proof. intros H. apply is_nan_eq in H. subst. now rewrite mul_nan_r. Qed.

(** X14.  Once the integral of a controller is NaN, no sequence of [Update]
    calls, and no [DischargeIntegral], makes it a number again, whatever
    the inputs: only [Reset] clears it. *)
Theorem nan_integral_is_sticky :
  (forall inputs (c : PID.Controller),
      is_nan (PID.ControlErrorIntegral (PID.State c)) = true ->
      is_nan (PID.ControlErrorIntegral (PID.State (PID.Updates c inputs)))
      = true)
  /\ (forall inputs (c : PI.PIController),
         is_nan (PI.ControlErrorIntegral (PI.State c)) = true ->
         is_nan (PI.ControlErrorIntegral (PI.State (PI.Updates c inputs)))
         = true)
  /\ (forall inputs (c : AW.AntiWindupController) dt,
         is_nan (AW.ControlErrorIntegral (AW.State c)) = true ->
         is_nan (AW.ControlErrorIntegral (AW.State (AW.Updates c inputs)))
         = true
         /\ is_nan (AW.ControlErrorIntegral
                      (AW.State (AW.DischargeIntegral
                                   (AW.Updates c inputs) dt))) = true)
  /\ (forall inputs (c : TR.TrackingController) dt,
         is_nan (TR.ControlErrorIntegral (TR.State c)) = true ->
         is_nan (TR.ControlErrorIntegral (TR.State (TR.Updates c inputs)))
         = true
         /\ is_nan (TR.ControlErrorIntegral
                      (TR.State (TR.DischargeIntegral
                                   (TR.Updates c inputs) dt))) = true).
Proof.
  split; [|split; [|split]].
  - induction inputs as [|i l IH]; intros c H; [exact H|].
    unfold PID.Updates in *. cbn [fold_left]. apply IH.
    unfold PID.Update. cbn [PID.State PID.ControlErrorIntegral].
    now apply add_is_nan_l.
  - induction inputs as [|i l IH]; intros c H; [exact H|].
    unfold PI.Updates in *. cbn [fold_left]. apply IH.
    unfold PI.Update. cbn [PI.State PI.ControlErrorIntegral].
    now apply clamp_nan_gen, add_is_nan_l.
  - assert (Hrun : forall inputs (c : AW.AntiWindupController),
               is_nan (AW.ControlErrorIntegral (AW.State c)) = true ->
               is_nan (AW.ControlErrorIntegral
                         (AW.State (AW.Updates c inputs))) = true).
    { induction inputs as [|i l IH]; intros c H; [exact H|].
      unfold AW.Updates in *. cbn [fold_left]. apply IH.
      unfold AW.Update. cbn [AW.State AW.ControlErrorIntegral].
      now apply clamp_nan_gen, add_is_nan_r. }
    intros inputs c dt H. split; [now apply Hrun|].
    unfold AW.DischargeIntegral. cbn [AW.State AW.ControlErrorIntegral].
    apply mul_is_nan_r. now apply Hrun.
  - assert (Hrun : forall inputs (c : TR.TrackingController),
               is_nan (TR.ControlErrorIntegral (TR.State c)) = true ->
               is_nan (TR.ControlErrorIntegral
                         (TR.State (TR.Updates c inputs))) = true).
    { induction inputs as [|i l IH]; intros c H; [exact H|].
      unfold TR.Updates in *. cbn [fold_left]. apply IH.
      unfold TR.Update. cbn [TR.State TR.ControlErrorIntegral].
      now apply clamp_nan_gen, add_is_nan_r. }
    intros inputs c dt H. split; [now apply Hrun|].
    unfold TR.DischargeIntegral. cbn [TR.State TR.ControlErrorIntegral].
    apply mul_is_nan_r. now apply Hrun.
Qed.

Lemma nan_integral_is_sticky_witness :
  let c := PI.Update (Examples.pi (-1) 1) Examples.piStepNaN in
  is_nan (PI.ControlErrorIntegral (PI.State c)) = true
  /\ is_nan (PI.ControlErrorIntegral
               (PI.State (PI.Updates c [Examples.piStep 5 0;
                                        Examples.piStep 0 5]))) = true.
Proof.
  intros c. split; [reflexivity|].
  apply (proj1 (proj2 nan_integral_is_sticky)
               [Examples.piStep 5 0; Examples.piStep 0 5] c).
  reflexivity.
Defined.

(** ** The integrator runs one step behind *)

Lemma first_integral (dt : Duration) :
  - 2 ^ 63 <= dt < 2 ^ 63 ->
  clampMax (integral_law zero (seconds dt) zero) = zero.
Proof.
  intros Hr. unfold integral_law.
  destruct (Z.eq_dec dt 0) as [->|Hnz]; [reflexivity|].
  destruct (seconds_int64 dt Hr Hnz) as (m & e & -> & _).
  destruct (dt <? 0); reflexivity.
Qed.

(** X15.  The first [Update] after a [Reset] of the anti-windup controller,
    and of the tracking controller, stores a zero integral whatever the
    error and the (int64) sampling interval: the integral accumulates the
    integrand of the previous step, and after [Reset] that is 0. *)
Theorem first_update_integral_is_zero :
  (forall (c : AW.AntiWindupController) input,
      - 2 ^ 63 <= AW.SamplingInterval input < 2 ^ 63 ->
      AW.ControlErrorIntegral (AW.State (AW.Update (AW.Reset c) input)) = zero)
  /\ (forall (c : TR.TrackingController) input,
         - 2 ^ 63 <= TR.SamplingInterval input < 2 ^ 63 ->
         TR.ControlErrorIntegral (TR.State (TR.Update (TR.Reset c) input))
         = zero).
Proof.
  split.
  - intros c input Hr.
    rewrite (proj1 (AW_Update_State (AW.Reset c) input)).
    cbn [AW.ControlErrorIntegral AW.Reset AW.State AW.zeroState
         AW.ControlErrorIntegrand].
    now apply first_integral.
  - intros c input Hr.
    rewrite (proj1 (TR_Update_State (TR.Reset c) input)).
    cbn [TR.ControlErrorIntegral TR.Reset TR.State TR.zeroState
         TR.ControlErrorIntegrand].
    now apply first_integral.
Qed.

Lemma first_update_integral_is_zero_witness :
  - 2 ^ 63 <= AW.SamplingInterval Examples.awStepMax < 2 ^ 63
  /\ AW.ControlErrorIntegral
       (AW.State (AW.Update (AW.Reset Examples.awCharged) Examples.awStepMax))
     = zero.
Proof.
  assert (H : - 2 ^ 63 <= AW.SamplingInterval Examples.awStepMax < 2 ^ 63)
    by (cbn; unfold Second; lia).
  split; [exact H|].
  apply (proj1 first_update_integral_is_zero Examples.awCharged
               Examples.awStepMax H).
Defined.
